(** * dry-go: the generic repository and reconciliation toolkit

    A shallow embedding of the packages [utils] (field projection, field
    keying, set reconciliation) and [gormdb] (query predicate, query
    options, generic CRUD repository), followed by the properties of the
    specification that concern them.

    Conventions.
    - A Go slice is a [list]; a Go map with comparable keys is a [gmap];
      a [mapset.Set] is a [gset].
    - A Go [int] / [int64] is a [Z] together with the 64-bit two's
      complement wrap-around of every arithmetic operation ([GoInt]).
    - A Go [error] value is [option error], [None] being [nil].
    - A function that mutates its receiver through a pointer and returns it
      is a function from the old value to the new one.
    - The [context.Context] argument of the repository methods is passed
      through to the store untouched and is left out.
    - [int] is taken to be 64 bits wide, so that the conversions between
      [int] and [int64] in [List] are identities. *)

From Stdlib Require Import ZArith Lia.
From stdpp Require Import base option list gmap sets strings.

Local Open Scope string_scope.
Local Open Scope list_scope.
Local Open Scope Z_scope.

(* ===================================================================== *)
(** * Part I: definitions                                                 *)
(* ===================================================================== *)

(** ** Go machine integers *)

Module GoInt.

Definition min_int : Z := - 2 ^ 63.
Definition max_int : Z := 2 ^ 63 - 1.

Definition in_range (z : Z) : Prop := min_int <= z <= max_int.

(** Two's complement wrap-around of a mathematical integer to 64 bits. *)
Definition wrap (z : Z) : Z := (z + 2 ^ 63) mod 2 ^ 64 - 2 ^ 63.

Definition add (x y : Z) : Z := wrap (x + y).
Definition sub (x y : Z) : Z := wrap (x - y).
Definition mul (x y : Z) : Z := wrap (x * y).

(** Go's [/] and [%] truncate towards zero; a zero divisor is a run-time
    panic, reported as [None]. *)
Definition quo (x y : Z) : option Z :=
  if decide (y = 0) then None else Some (wrap (Z.quot x y)).
Definition rem (x y : Z) : option Z :=
  if decide (y = 0) then None else Some (Z.rem x y).

End GoInt.

(** ** Zero values

    [make([]FieldT, n)] and [new(T)] fill with the zero value of the type. *)

Class GoZero (A : Type) : Type := zero_value : A.
Global Hint Mode GoZero ! : typeclass_instances.

Global Instance Z_zero : GoZero Z := 0.
Global Instance string_zero : GoZero string := "".
Global Instance bool_zero : GoZero bool := false.

(** ** Package [utils] *)

Module utils.

Section Selectors.
Context {StructT FieldT : Type}.

(** [type SelectFn[StructT, FieldT] func(StructT) (FieldT, bool)] *)
Definition SelectFn : Type := StructT → FieldT * bool.

Definition SelectAll (f : StructT → FieldT) : SelectFn :=
  λ structure, (f structure, true).

(** The body of the [for i, item := range list] loop of [PluckFn]:
    [result[i] = field] unless the selector said [add = false]. *)
Fixpoint PluckFn_loop (fn : SelectFn) (i : nat) (items : list StructT)
    (result : list FieldT) : list FieldT :=
  match items with
  | [] => result
  | item :: rest =>
      let '(field, add) := fn item in
      if negb add then PluckFn_loop fn (S i) rest result
      else PluckFn_loop fn (S i) rest (<[i := field]> result)
  end.

(** [result := make([]FieldT, len(list))] followed by the loop. *)
Definition PluckFn `{!GoZero FieldT} (list : list StructT) (fn : SelectFn)
    : Datatypes.list FieldT :=
  PluckFn_loop fn 0%nat list (replicate (length list) zero_value).

End Selectors.

Arguments SelectFn : clear implicits.

Section Keying.
Context {KeyT : Type} `{Countable KeyT} {ValueT StructT : Type}.

(** One iteration of the loop of [FieldMapStructFn]. *)
Definition FieldMapStructFn_step (fn : SelectFn StructT KeyT)
    (result : gmap KeyT StructT) (item : StructT) : gmap KeyT StructT :=
  let '(field, add) := fn item in
  if negb add then result else <[field := item]> result.

Definition FieldMapStructFn (list : list StructT) (fn : SelectFn StructT KeyT)
    : gmap KeyT StructT :=
  fold_left (FieldMapStructFn_step fn) list ∅.

(** One iteration of the loop of [FieldMapFieldFn]: the value selector is
    only consulted when the key selector included the record. *)
Definition FieldMapFieldFn_step (keySel : SelectFn StructT KeyT)
    (valueSel : SelectFn StructT ValueT)
    (result : gmap KeyT ValueT) (item : StructT) : gmap KeyT ValueT :=
  let '(key, addKey) := keySel item in
  if negb addKey then result
  else
    let '(value, addValue) := valueSel item in
    if negb addValue then result else <[key := value]> result.

Definition FieldMapFieldFn (slice : list StructT)
    (keySel : SelectFn StructT KeyT) (valueSel : SelectFn StructT ValueT)
    : gmap KeyT ValueT :=
  fold_left (FieldMapFieldFn_step keySel valueSel) slice ∅.

(** A record produces key [k] for the struct map: the selector includes
    it with that key. *)
Definition keys_struct (fn : SelectFn StructT KeyT) (k : KeyT)
    (item : StructT) : Prop :=
  fn item = (k, true).

(** A record produces key [k] for the field map: the key selector includes
    it with that key and the value selector includes it too. *)
Definition keys_field (keySel : SelectFn StructT KeyT)
    (valueSel : SelectFn StructT ValueT) (k : KeyT) (item : StructT) : Prop :=
  keySel item = (k, true) ∧ (valueSel item).2 = true.

End Keying.

Section Reconciliation.
Context {E : Type} `{Countable E}.

(** [mapset.NewSet(items...)] *)
Definition NewSet (items : list E) : gset E := list_to_set items.

(** [SetCmp]: the three slices are [ToSlice()] of a difference, a
    difference and an intersection of the two sets.  The order in which
    [ToSlice] enumerates is unspecified in Go; [elements] fixes one. *)
Definition SetCmp (current target : list E) : list E * list E * list E :=
  let currentSet := NewSet current in
  let targetSet := NewSet target in
  let added := elements (targetSet ∖ currentSet) in
  let deleted := elements (currentSet ∖ targetSet) in
  let overlapped := elements (currentSet ∩ targetSet) in
  (added, overlapped, deleted).

(** [Uniq]: first occurrences, in input order. *)
Fixpoint Uniq_loop (m : gset E) (list : list E) : Datatypes.list E :=
  match list with
  | [] => []
  | item :: rest =>
      if decide (item ∈ m) then Uniq_loop m rest
      else item :: Uniq_loop ({[item]} ∪ m) rest
  end.

Definition Uniq (list : list E) : Datatypes.list E := Uniq_loop ∅ list.

End Reconciliation.

Section More_projection.
Context {StructT FieldT : Type} `{Countable FieldT} `{!GoZero FieldT}.

(** [PluckUniqFn]: [Uniq] of [PluckFn]. *)
Definition PluckUniqFn (list : list StructT) (fn : SelectFn StructT FieldT)
    : Datatypes.list FieldT :=
  Uniq (PluckFn list fn).

End More_projection.

Section More_reconciliation.
Context {E : Type} `{Countable E}.

(** [SetCompare], the older spelling of [SetCmp]. *)
Definition SetCompare (current target : list E) : list E * list E * list E :=
  let currentSet := NewSet current in
  let targetSet := NewSet target in
  let new := elements (targetSet ∖ currentSet) in
  let deleted := elements (currentSet ∖ targetSet) in
  let overlapped := elements (currentSet ∩ targetSet) in
  (new, overlapped, deleted).

(** [Unique]: every item becomes a key of a [map[T]struct{}], and the keys
    are collected.  The order in which Go enumerates the keys is
    unspecified; [map_to_list] fixes one. *)
Definition Unique (list : list E) : Datatypes.list E :=
  let m := fold_left (λ (m : gmap E ()) item, <[item := ()]> m) list ∅ in
  (map_to_list m).*1.

End More_reconciliation.

(** [type Set[T comparable] map[T]struct{}] and its methods.  A method
    that writes to the map returns the map as it leaves it. *)
Module GoSet.
Section GoSet.
Context {T : Type} `{Countable T}.

Definition NewSet (items : list T) : gmap T () :=
  fold_left (λ (s : gmap T ()) item, <[item := ()]> s) items ∅.

Definition Add (s : gmap T ()) (item : T) : gmap T () := <[item := ()]> s.

Definition Remove (s : gmap T ()) (item : T) : gmap T () := delete item s.

Definition Contain (s : gmap T ()) (item : T) : bool :=
  match s !! item with
  | Some _ => true
  | None => false
  end.

Definition ToSlice (s : gmap T ()) : list T := (map_to_list s).*1.

End GoSet.
End GoSet.

(** The record of the package's examples. *)
Record User : Type := mkUser { ID : Z; Name : string; Age : Z }.

Definition alice : User := mkUser 1 "Alice" 30.
Definition bob : User := mkUser 2 "Bob" 25.
Definition charlie : User := mkUser 3 "Charlie" 35.
Definition users : list User := [alice; bob; charlie].

(** Two users sharing an ID: [alice] first, [zed] last. *)
Definition zed : User := mkUser 1 "Zed" 40.
Definition shared_id : list User := [alice; bob; zed].

(** The selector of [ExamplePluckFn_conditional]. *)
Definition older_than_28 : SelectFn User string :=
  λ u, if decide (Age u > 28) then (Name u, true) else ("", false).

End utils.

(** ** Errors, dynamic values and panics *)

(** A Go [error] value.  The backing store's "record not found" sentinel
    ([gorm.ErrRecordNotFound]) is the only one the repository could tell
    apart; every other error is an opaque message. *)
Inductive error : Type :=
| ErrRecordNotFound
| ErrOther (msg : string).

Global Instance error_eq_dec : EqDecision error.
Proof. solve_decision. Defined.

(** The values of [map[string]any] query conditions. *)
Inductive any : Type :=
| AInt (z : Z)
| AStr (s : string)
| ABool (b : bool).

Global Instance any_eq_dec : EqDecision any.
Proof. solve_decision. Defined.

(** A computation that either returns or panics. *)
Inductive outcome (A : Type) : Type :=
| Done (a : A)
| Panicked (msg : string).
Arguments Done {A} a.
Arguments Panicked {A} msg.

Global Instance outcome_ret : MRet outcome := λ A a, Done a.
Global Instance outcome_bind : MBind outcome := λ A B f m,
  match m with
  | Done a => f a
  | Panicked msg => Panicked msg
  end.

(** A Go operation that panics when the option is [None]. *)
Definition or_panic {A : Type} (msg : string) (o : option A) : outcome A :=
  match o with
  | Some a => Done a
  | None => Panicked msg
  end.

(** ** The backing store

    The repository delegates to [*gorm.DB].  The store is modelled in
    memory: a table of rows kept in primary-key order, a schedule of
    faults (the error, if any, with which each successive statement
    fails), and the trace of the statements and transaction marks that
    reached the store. *)

Module gorm.

(** What the store knows about a record type: its columns, its primary
    key, how an [ORDER BY] clause compares two rows, and how a relation is
    loaded into a row. *)
Class Model (T : Type) : Type := {
  column : T → string → option any;
  primary_key : T → Z;
  order_cmp : string → T → T → comparison;
  preload : string → T → T;
}.

(** The clauses accumulated by the chain methods. *)
Record Statement : Type := mkStatement {
  Where_ : gmap string any;
  Not_ : gmap string any;
  Orders : list string;
  Preloads : list string;
  Offset_ : Z;
  Limit_ : option Z;
}.

Definition Session : Statement := mkStatement ∅ ∅ [] [] 0 None.

Definition Where (st : Statement) (q : gmap string any) : Statement :=
  mkStatement (q ∪ Where_ st) (Not_ st) (Orders st) (Preloads st)
    (Offset_ st) (Limit_ st).
Definition Not (st : Statement) (not : gmap string any) : Statement :=
  mkStatement (Where_ st) (not ∪ Not_ st) (Orders st) (Preloads st)
    (Offset_ st) (Limit_ st).
Definition Order (st : Statement) (clause : string) : Statement :=
  mkStatement (Where_ st) (Not_ st) (Orders st ++ [clause]) (Preloads st)
    (Offset_ st) (Limit_ st).
Definition Preload (st : Statement) (relation : string) : Statement :=
  mkStatement (Where_ st) (Not_ st) (Orders st) (Preloads st ++ [relation])
    (Offset_ st) (Limit_ st).
Definition Offset (st : Statement) (offset : Z) : Statement :=
  mkStatement (Where_ st) (Not_ st) (Orders st) (Preloads st)
    offset (Limit_ st).
Definition Limit (st : Statement) (limit : Z) : Statement :=
  mkStatement (Where_ st) (Not_ st) (Orders st) (Preloads st)
    (Offset_ st) (Some limit).

Section Store.
Context {T : Type} `{!Model T}.

Inductive Event : Type :=
| EvBegin
| EvCommit
| EvRollback
| EvFirst (st : Statement)
| EvFind (st : Statement)
| EvCount (st : Statement)
| EvDelete (st : Statement)
| EvSave (r : T).

Record DB : Type := mkDB {
  rows : list T;
  faults : list (option error);
  trace : list Event;
}.

(** The next [k] statements reach the store without a fault. *)
Definition no_fault (k : nat) (db : DB) : Prop :=
  Forall (λ f, f = None) (take k (faults db)).

(** The fault awaiting the next statement (an exhausted schedule means no
    fault). *)
Definition next_fault (db : DB) : option error :=
  default None (head (faults db)).

(** A statement reaches the store: it is traced and consumes the head of
    the fault schedule. *)
Definition exec (ev : Event) (db : DB) : DB * option error :=
  (mkDB (rows db) (tail (faults db)) (trace db ++ [ev]), next_fault db).

(** A transaction mark: traced, never faulty. *)
Definition mark (ev : Event) (db : DB) : DB :=
  mkDB (rows db) (faults db) (trace db ++ [ev]).

(** [WHERE] conditions are conjunctive equalities, [NOT] conditions
    conjunctive inequalities; a row must satisfy both groups. *)
Definition holds (r : T) (cond : string * any) : bool :=
  bool_decide (column r cond.1 = Some cond.2).

Definition matches (st : Statement) (r : T) : bool :=
  forallb (holds r) (map_to_list (Where_ st))
  && forallb (λ cond, negb (holds r cond)) (map_to_list (Not_ st)).

(** [a] sorts no later than [b] under the clauses, the first clause that
    distinguishes them deciding. *)
Fixpoint sorts_before (clauses : list string) (a b : T) : bool :=
  match clauses with
  | [] => true
  | clause :: rest =>
      match order_cmp clause a b with
      | Lt => true
      | Gt => false
      | Eq => sorts_before rest a b
      end
  end.

Fixpoint insert_sorted (clauses : list string) (r : T) (l : list T)
    : list T :=
  match l with
  | [] => [r]
  | x :: l' =>
      if sorts_before clauses x r then x :: insert_sorted clauses r l'
      else r :: x :: l'
  end.

(** Stable sort: rows the clauses do not distinguish stay in primary-key
    order. *)
Definition sort_rows (clauses : list string) (l : list T) : list T :=
  foldr (λ r acc, insert_sorted clauses r acc) [] (reverse l).

(** The rows a statement selects, in the order it asks for. *)
Definition selected (st : Statement) (rs : list T) : list T :=
  sort_rows (Orders st) (filter (λ r, matches st r = true) rs).

(** [OFFSET] applies when positive, [LIMIT] when set and non-negative. *)
Definition window (st : Statement) (l : list T) : list T :=
  let l := if decide (0 < Offset_ st) then drop (Z.to_nat (Offset_ st)) l
           else l in
  match Limit_ st with
  | Some n => if decide (0 <= n) then take (Z.to_nat n) l else l
  | None => l
  end.

Definition loaded (st : Statement) (r : T) : T :=
  fold_left (λ r relation, preload relation r) (Preloads st) r.

(** [db.First(dest)]: the first selected row is written to [dest]; when
    there is none the error is [ErrRecordNotFound] and [dest] is left as
    it was. *)
Definition First (st : Statement) (dest : T) (db : DB)
    : DB * (T * option error) :=
  let '(db', fault) := exec (EvFirst st) db in
  match fault with
  | Some e => (db', (dest, Some e))
  | None =>
      match selected st (rows db) with
      | [] => (db', (dest, Some ErrRecordNotFound))
      | r :: _ => (db', (loaded st r, None))
      end
  end.

(** [db.Find(&dest)] *)
Definition Find (st : Statement) (dest : list T) (db : DB)
    : DB * (list T * option error) :=
  let '(db', fault) := exec (EvFind st) db in
  match fault with
  | Some e => (db', (dest, Some e))
  | None => (db', (loaded st <$> window st (selected st (rows db)), None))
  end.

(** [db.Model(new(T)).Count(&dest)]: counting reads the conditions only
    (the [ORDER BY] clause is dropped by the store). *)
Definition Count (st : Statement) (dest : Z) (db : DB)
    : DB * (Z * option error) :=
  let '(db', fault) := exec (EvCount st) db in
  match fault with
  | Some e => (db', (dest, Some e))
  | None =>
      (db', (Z.of_nat (length (filter (λ r, matches st r = true) (rows db))),
             None))
  end.

(** [gorm.ErrMissingWhereClause] *)
Definition ErrMissingWhereClause : error :=
  ErrOther "WHERE conditions required".

(** [db.Delete(&t)]: deleting no row is not an error, but a delete that
    carries no condition at all is refused with [ErrMissingWhereClause] and
    removes nothing.  The refusal comes after the store has been reached
    (the delete runs in a transaction of its own), so a fault of the store
    is reported first. *)
Definition Delete (st : Statement) (db : DB) : DB * option error :=
  let '(db', fault) := exec (EvDelete st) db in
  match fault with
  | Some e => (db', Some e)
  | None =>
      if decide (Where_ st = ∅ ∧ Not_ st = ∅)
      then (db', Some ErrMissingWhereClause)
      else
        (mkDB (filter (λ r, matches st r = false) (rows db')) (faults db')
           (trace db'), None)
  end.

(** [db.Save(r)]: the row with [r]'s primary key is replaced, or [r] is
    inserted when there is none.  (A key the store would assign to an
    inserted record is not represented: the record is inserted as it
    is.) *)
Definition upsert (r : T) (rs : list T) : list T :=
  if existsb (λ x, bool_decide (primary_key x = primary_key r)) rs
  then (λ x, if decide (primary_key x = primary_key r) then r else x) <$> rs
  else rs ++ [r].

Definition Save (r : T) (db : DB) : DB * option error :=
  let '(db', fault) := exec (EvSave r) db in
  match fault with
  | Some e => (db', Some e)
  | None => (mkDB (upsert r (rows db')) (faults db') (trace db'), None)
  end.

(** [db.Transaction(fc)]: the rows are those [fc] left when it returns
    [nil], and those before the call when it returns an error. *)
Definition Transaction (fc : DB → DB * option error) (db : DB)
    : DB * option error :=
  let '(tx, err) := fc (mark EvBegin db) in
  match err with
  | Some e => (mkDB (rows db) (faults tx) (trace tx ++ [EvRollback]), Some e)
  | None => (mark EvCommit tx, None)
  end.

End Store.

Arguments Event : clear implicits.
Arguments DB : clear implicits.

End gorm.

(** ** Package [gormdb] *)

Module gormdb.

(** [type Query struct { q, not map[string]any }] *)
Module Query.
Record t : Type := mk {
  q : gmap string any;
  not : gmap string any;
}.
(** [func (q *Query) Not(not map[string]any) *Query] *)
Definition Not (self : t) (not : gmap string any) : t := mk (q self) not.
End Query.

(** [func Q(q map[string]any) *Query] *)
Definition Q (q : gmap string any) : Query.t := Query.mk q ∅.

Module QueryOpt.
Record t : Type := mk {
  OmitNotFoundErrFn : option (error → option error);
  OrderBy : list string;
  Preloads : list string;
  TotalCount : Z;
  PageNumber : Z;
  PageSize : Z;
  OmitNotFoundErr : bool;
  Paginate : bool;
}.

(** Assignments to a field through the [*QueryOpt] pointer. *)
Definition set_OmitNotFoundErrFn (v : option (error → option error)) (c : t)
    : t :=
  mk v (OrderBy c) (Preloads c) (TotalCount c) (PageNumber c) (PageSize c)
    (OmitNotFoundErr c) (Paginate c).
Definition set_OrderBy (v : list string) (c : t) : t :=
  mk (OmitNotFoundErrFn c) v (Preloads c) (TotalCount c) (PageNumber c)
    (PageSize c) (OmitNotFoundErr c) (Paginate c).
Definition set_Preloads (v : list string) (c : t) : t :=
  mk (OmitNotFoundErrFn c) (OrderBy c) v (TotalCount c) (PageNumber c)
    (PageSize c) (OmitNotFoundErr c) (Paginate c).
Definition set_TotalCount (v : Z) (c : t) : t :=
  mk (OmitNotFoundErrFn c) (OrderBy c) (Preloads c) v (PageNumber c)
    (PageSize c) (OmitNotFoundErr c) (Paginate c).
Definition set_PageNumber (v : Z) (c : t) : t :=
  mk (OmitNotFoundErrFn c) (OrderBy c) (Preloads c) (TotalCount c) v
    (PageSize c) (OmitNotFoundErr c) (Paginate c).
Definition set_PageSize (v : Z) (c : t) : t :=
  mk (OmitNotFoundErrFn c) (OrderBy c) (Preloads c) (TotalCount c)
    (PageNumber c) v (OmitNotFoundErr c) (Paginate c).
Definition set_OmitNotFoundErr (v : bool) (c : t) : t :=
  mk (OmitNotFoundErrFn c) (OrderBy c) (Preloads c) (TotalCount c)
    (PageNumber c) (PageSize c) v (Paginate c).
Definition set_Paginate (v : bool) (c : t) : t :=
  mk (OmitNotFoundErrFn c) (OrderBy c) (Preloads c) (TotalCount c)
    (PageNumber c) (PageSize c) (OmitNotFoundErr c) v.
End QueryOpt.

(** [type QueryOptFn func(c *QueryOpt) *QueryOpt] *)
Definition QueryOptFn : Type := QueryOpt.t → QueryOpt.t.

Definition NewQueryOpt : QueryOpt.t :=
  {| QueryOpt.OmitNotFoundErrFn := None;
     QueryOpt.OrderBy := [];
     QueryOpt.Preloads := [];
     QueryOpt.TotalCount := 0;
     QueryOpt.PageNumber := 1;
     QueryOpt.PageSize := 50;
     QueryOpt.OmitNotFoundErr := false;
     QueryOpt.Paginate := false |}.

(** [OmitNotFoundErr(errFn)] panics on a nil [errFn]. *)
Definition OmitNotFoundErr (errFn : option (error → option error))
    : outcome QueryOptFn :=
  match errFn with
  | None =>
      Panicked "OmitNotFoundErr requires a non-nil error handling function"
  | Some _ =>
      Done (λ c,
        let c := QueryOpt.set_OmitNotFoundErr true c in
        let c := QueryOpt.set_OmitNotFoundErrFn errFn c in
        c)
  end.

Module ListRes.
Record t (T : Type) : Type := mk {
  Items : list T;
  Total : Z;
  PageSize : Z;
  PageCount : Z;
  Page : Z;
}.
Arguments mk {T} Items Total PageSize PageCount Page.
Arguments Items {T} _.
Arguments Total {T} _.
Arguments PageSize {T} _.
Arguments PageCount {T} _.
Arguments Page {T} _.
End ListRes.

Definition Pagination (pageNumber pageSize : Z) : QueryOptFn :=
  λ c,
    let c := QueryOpt.set_Paginate true c in
    let c := if decide (pageNumber > 0)
             then QueryOpt.set_PageNumber pageNumber c else c in
    let c := if decide (pageSize > 0)
             then QueryOpt.set_PageSize pageSize c else c in
    c.

Definition OrderBy (orderBy : list string) : QueryOptFn :=
  λ c, QueryOpt.set_OrderBy orderBy c.

Definition Preload (preloads : list string) : QueryOptFn :=
  λ c, QueryOpt.set_Preloads preloads c.

(** The loop [for _, fn := range opts { c = fn(c) }]. *)
Fixpoint BuildOpt_loop (c : QueryOpt.t) (opts : list QueryOptFn)
    : QueryOpt.t :=
  match opts with
  | [] => c
  | fn :: rest => BuildOpt_loop (fn c) rest
  end.

Definition BuildOpt (opts : list QueryOptFn) : QueryOpt.t :=
  BuildOpt_loop NewQueryOpt opts.

(** Page number and page size are both at least 1. *)
Definition pages_positive (c : QueryOpt.t) : Prop :=
  1 <= QueryOpt.PageNumber c ∧ 1 <= QueryOpt.PageSize c.

(** The suppression flag is only on together with a mapping function. *)
Definition suppression_wellformed (c : QueryOpt.t) : Prop :=
  QueryOpt.OmitNotFoundErr c = true → is_Some (QueryOpt.OmitNotFoundErrFn c).

(** No total has been counted, and as long as pagination is off the page
    number and size are the defaults. *)
Definition pagination_untouched (c : QueryOpt.t) : Prop :=
  QueryOpt.TotalCount c = 0
  ∧ (QueryOpt.Paginate c = false →
     QueryOpt.PageNumber c = 1 ∧ QueryOpt.PageSize c = 50).

(** The option functions the package exports constructors for. *)
Inductive public_opt : QueryOptFn → Prop :=
| public_Pagination pageNumber pageSize :
    public_opt (Pagination pageNumber pageSize)
| public_OrderBy orderBy : public_opt (OrderBy orderBy)
| public_Preload preloads : public_opt (Preload preloads)
| public_OmitNotFoundErr errFn fn :
    OmitNotFoundErr errFn = Done fn → public_opt fn.

Section CRUD.
Context {T : Type} `{!gorm.Model T} `{!GoZero T}.

(** [r.DB.WithContext(ctx).Where(query.q).Not(query.not)] *)
Definition scope (query : Query.t) : gorm.Statement :=
  gorm.Not (gorm.Where gorm.Session (Query.q query)) (Query.not query).

(** Calling the configured mapping function; calling a nil function value
    panics. *)
Definition call_OmitNotFoundErrFn (o : QueryOpt.t) (err : error)
    : outcome (option error) :=
  fn ← or_panic "invalid memory address or nil pointer dereference"
         (QueryOpt.OmitNotFoundErrFn o);
  mret (fn err).

(** [crud.Get]: the only test on the store's answer is
    [err != nil && o.OmitNotFoundErr]; every other path ends in
    [return result, nil]. *)
Definition Get (query : Query.t) (opts : list QueryOptFn) (db : gorm.DB T)
    : outcome (gorm.DB T * (option T * option error)) :=
  let result : T := zero_value in
  let o := BuildOpt opts in
  let db_ := scope query in
  let db_ := fold_left gorm.Preload (QueryOpt.Preloads o) db_ in
  let '(db', (result, err)) := gorm.First db_ result db in
  match err with
  | Some e =>
      if QueryOpt.OmitNotFoundErr o then
        mapped ← call_OmitNotFoundErrFn o e;
        mret (db', (None, mapped))
      else mret (db', (Some result, None))
  | None => mret (db', (Some result, None))
  end.

(** [crud.List]: order clauses, then (when paginating) the count and the
    offset and limit, then the preloads, the fetch and the page count. *)
Definition List (query : Query.t) (opts : list QueryOptFn) (db : gorm.DB T)
    : outcome (gorm.DB T * (option (ListRes.t T) * option error)) :=
  let results : list T := [] in
  let o := BuildOpt opts in
  let db_ := scope query in
  let db_ := fold_left gorm.Order (QueryOpt.OrderBy o) db_ in
  let counted :=
    if QueryOpt.Paginate o then
      let '(db1, (total, err)) := gorm.Count db_ (QueryOpt.TotalCount o) db in
      let o := QueryOpt.set_TotalCount total o in
      match err with
      | Some e => inl (db1, e)
      | None =>
          let offset :=
            GoInt.mul (GoInt.sub (QueryOpt.PageNumber o) 1)
              (QueryOpt.PageSize o) in
          inr (db1, o,
               gorm.Limit (gorm.Offset db_ offset) (QueryOpt.PageSize o))
      end
    else inr (db, o, db_) in
  match counted with
  | inl (db1, e) => mret (db1, (None, Some e))
  | inr (db1, o, db_) =>
      let db_ := fold_left gorm.Preload (QueryOpt.Preloads o) db_ in
      let '(db2, (results, err)) := gorm.Find db_ results db1 in
      match err with
      | Some e => mret (db2, (None, Some e))
      | None =>
          quotient ← or_panic "integer divide by zero"
            (GoInt.quo (QueryOpt.TotalCount o) (QueryOpt.PageSize o));
          remainder ← or_panic "integer divide by zero"
            (GoInt.rem (QueryOpt.TotalCount o) (QueryOpt.PageSize o));
          let pageCount := quotient in
          let pageCount :=
            if decide (remainder > 0) then GoInt.add pageCount 1
            else pageCount in
          mret (db2,
                (Some (ListRes.mk results (QueryOpt.TotalCount o)
                         (QueryOpt.PageSize o) pageCount
                         (QueryOpt.PageNumber o)),
                 None))
      end
  end.

(** [crud.Delete]: the same test on the store's answer as in [Get]. *)
Definition Delete (query : Query.t) (opts : list QueryOptFn) (db : gorm.DB T)
    : outcome (gorm.DB T * option error) :=
  let o := BuildOpt opts in
  let '(db', err) := gorm.Delete (scope query) db in
  match err with
  | Some e =>
      if QueryOpt.OmitNotFoundErr o then
        mapped ← call_OmitNotFoundErrFn o e;
        mret (db', mapped)
      else mret (db', None)
  | None => mret (db', None)
  end.

(** [crud.UpdateByFn].  [updateFn] receives a pointer to the fetched
    record: it returns the record as it left it together with its two
    results. *)
Definition UpdateByFn (query : Query.t)
    (updateFn : T → T * (bool * option error)) (db : gorm.DB T)
    : gorm.DB T * option error :=
  gorm.Transaction (λ tx,
    let updatedEntity : T := zero_value in
    let '(tx, (updatedEntity, err)) :=
      gorm.First (scope query) updatedEntity tx in
    match err with
    | Some e => (tx, Some e)
    | None =>
        let '(updatedEntity, (updated, err)) := updateFn updatedEntity in
        match err with
        | Some e => (tx, Some e)
        | None =>
            if negb updated then (tx, None)
            else
              let '(tx, err) := gorm.Save updatedEntity tx in
              match err with
              | Some e => (tx, Some e)
              | None => (tx, None)
              end
        end
    end) db.

End CRUD.

End gormdb.

(** ** Package [utils], the helpers that go through reflection

    [Pluck] and [FieldMap] inspect their items with package [reflect].
    What reflection can observe of an item is modelled by [reflect.Value]:
    a struct with its fields (name, whether exported, content), a pointer
    to another value (a nil pointer points to the invalid value), the
    invalid value, or a value of any other kind. *)

Module reflect.

Record StructField : Type := mkField {
  FieldName : string;
  Exported : bool;
  Content : any;
}.

Inductive Value : Type :=
| Invalid
| Struct (fields : list StructField)
| Ptr (elem : Value)
| OtherKind.

Inductive Kind : Type := KInvalid | KStruct | KPtr | KOther.

Global Instance Kind_eq_dec : EqDecision Kind.
Proof. solve_decision. Defined.

Definition Kind_of (v : Value) : Kind :=
  match v with
  | Invalid => KInvalid
  | Struct _ => KStruct
  | Ptr _ => KPtr
  | OtherKind => KOther
  end.

(** [v.Elem()], called on pointers only. *)
Definition Elem (v : Value) : Value :=
  match v with
  | Ptr elem => elem
  | _ => Invalid
  end.

(** [v.FieldByName(name)]: [None] is the zero Value, for which [IsValid]
    answers false. *)
Definition FieldByName (v : Value) (name : string) : option StructField :=
  match v with
  | Struct fields =>
      head (filter (λ f, FieldName f = name) fields)
  | _ => None
  end.

(** [reflect.ValueOf(item)] for the items of a given type. *)
Class Reflected (A : Type) : Type := ValueOf : A → Value.

(** The type assertion [x.(A)] on a field's content. *)
Class Asserted (A : Type) : Type := assert_type : any → option A.

Global Instance Z_asserted : Asserted Z :=
  λ x, match x with AInt z => Some z | _ => None end.
Global Instance string_asserted : Asserted string :=
  λ x, match x with AStr s => Some s | _ => None end.
Global Instance bool_asserted : Asserted bool :=
  λ x, match x with ABool b => Some b | _ => None end.

End reflect.

Module utils_reflect.

(** The errors of [Pluck] and [FieldMap], one constructor for each
    [fmt.Errorf] call, with the function name that prefixes the message
    and the field name where the message carries it.  The rendering of the
    item's type in the message is not represented. *)
Inductive FieldError : Type :=
| ExpectedStruct (caller : string)
| NoSuchField (caller fieldName : string)
| CannotBeAccessed (caller fieldName : string)
| NotOfType (caller fieldName : string).

Global Instance FieldError_eq_dec : EqDecision FieldError.
Proof. solve_decision. Defined.

Section Reflection.
Context {StructT : Type} `{!reflect.Reflected StructT}.

(** The body of the loop shared by [Pluck] and [FieldMap], up to the
    statement that stores the value. *)
Definition field_of {FieldT : Type} `{!reflect.Asserted FieldT}
    (caller : string) (item : StructT) (fieldName : string)
    : FieldError + FieldT :=
  let v := reflect.ValueOf item in
  let v := if decide (reflect.Kind_of v = reflect.KPtr) then reflect.Elem v
           else v in
  if decide (reflect.Kind_of v ≠ reflect.KStruct)
  then inl (ExpectedStruct caller)
  else
    match reflect.FieldByName v fieldName with
    | None => inl (NoSuchField caller fieldName)
    | Some field =>
        if negb (reflect.Exported field)
        then inl (CannotBeAccessed caller fieldName)
        else
          match reflect.assert_type (reflect.Content field) with
          | None => inl (NotOfType caller fieldName)
          | Some val => inr val
          end
    end.

(** The items all yield their field, [values] in order. *)
Definition all_yield {FieldT : Type} `{!reflect.Asserted FieldT}
    (caller fieldName : string) (items : list StructT)
    (values : list FieldT) : Prop :=
  Forall2 (λ item val, field_of caller item fieldName = inr val)
    items values.

Fixpoint Pluck_loop {FieldT : Type} `{!reflect.Asserted FieldT}
    (items : list StructT) (fieldName : string) (result : list FieldT)
    : list FieldT * option FieldError :=
  match items with
  | [] => (result, None)
  | item :: rest =>
      match field_of "Pluck" item fieldName with
      | inl err => ([], Some err)
      | inr val => Pluck_loop rest fieldName (result ++ [val])
      end
  end.

(** [Pluck]: a nil slice and the error at the first item that fails. *)
Definition Pluck {FieldT : Type} `{!reflect.Asserted FieldT}
    (list : list StructT) (fieldName : string)
    : Datatypes.list FieldT * option FieldError :=
  Pluck_loop list fieldName [].

Fixpoint FieldMap_loop {FieldT : Type} `{Countable FieldT}
    `{!reflect.Asserted FieldT}
    (items : list StructT) (fieldName : string)
    (result : gmap FieldT StructT)
    : gmap FieldT StructT * option FieldError :=
  match items with
  | [] => (result, None)
  | item :: rest =>
      match field_of "FieldMap" item fieldName with
      | inl err => (∅, Some err)
      | inr val => FieldMap_loop rest fieldName (<[val := item]> result)
      end
  end.

(** [FieldMap]: a nil map and the error at the first item that fails. *)
Definition FieldMap {FieldT : Type} `{Countable FieldT}
    `{!reflect.Asserted FieldT}
    (list : list StructT) (fieldName : string)
    : gmap FieldT StructT * option FieldError :=
  FieldMap_loop list fieldName ∅.

End Reflection.

(** The [User] of the package's tests, as reflection sees it, and a record
    with a field that is not exported. *)
Global Instance User_reflected : reflect.Reflected utils.User :=
  λ u, reflect.Struct
         [reflect.mkField "ID" true (AInt (utils.ID u));
          reflect.mkField "Name" true (AStr (utils.Name u));
          reflect.mkField "Age" true (AInt (utils.Age u))].

(** Items of mixed shape: users by value, by pointer, by nil pointer, by
    pointer to pointer, and plain numbers. *)
Inductive item : Type :=
| ByValue (u : utils.User)
| ByPointer (u : utils.User)
| NilPointer
| PointerToPointer (u : utils.User)
| Number (z : Z)
| Secretive (u : utils.User).

Global Instance item_reflected : reflect.Reflected item :=
  λ i, match i with
       | ByValue u => reflect.ValueOf u
       | ByPointer u => reflect.Ptr (reflect.ValueOf u)
       | NilPointer => reflect.Ptr reflect.Invalid
       | PointerToPointer u => reflect.Ptr (reflect.Ptr (reflect.ValueOf u))
       | Number _ => reflect.OtherKind
       | Secretive u =>
           reflect.Struct [reflect.mkField "id" false (AInt (utils.ID u))]
       end.

End utils_reflect.

(** ** A concrete record type and store, for the scenarios *)

Module bank.

Record Account : Type := mkAccount {
  AccountID : Z;
  Owner : string;
  Balance : Z;
  Relations : list string;
}.

Global Instance Account_zero : GoZero Account := mkAccount 0 "" 0 [].

Global Instance Account_model : gorm.Model Account := {|
  gorm.column r name :=
    if decide (name = "id") then Some (AInt (AccountID r))
    else if decide (name = "owner") then Some (AStr (Owner r))
    else if decide (name = "balance") then Some (AInt (Balance r))
    else None;
  gorm.primary_key := AccountID;
  gorm.order_cmp clause a b :=
    if decide (clause = "balance") then Z.compare (Balance a) (Balance b)
    else if decide (clause = "balance desc")
         then Z.compare (Balance b) (Balance a)
    else Eq;
  gorm.preload relation r :=
    mkAccount (AccountID r) (Owner r) (Balance r) (Relations r ++ [relation]);
|}.

Definition ann : Account := mkAccount 1 "ann" 20 [].
Definition ben : Account := mkAccount 2 "ben" 70 [].
Definition cay : Account := mkAccount 3 "cay" 50 [].
Definition dov : Account := mkAccount 4 "dov" 10 [].
Definition eve : Account := mkAccount 5 "eve" 90 [].

Definition accounts : list Account := [ann; ben; cay; dov; eve].

(** A healthy store, and one whose next statement fails to connect. *)
Definition store : gorm.DB Account := gorm.mkDB accounts [] [].
Definition unreachable : gorm.DB Account :=
  gorm.mkDB accounts [Some (ErrOther "connection refused")] [].

(** A mapping function that turns whatever it is given into a sentinel. *)
Definition to_sentinel : error → option error :=
  λ _, Some (ErrOther "no such account").

(** What [OmitNotFoundErr(to_sentinel)] returns. *)
Definition suppressing : gormdb.QueryOptFn :=
  λ c,
    gormdb.QueryOpt.set_OmitNotFoundErrFn (Some to_sentinel)
      (gormdb.QueryOpt.set_OmitNotFoundErr true c).

(** An assortment of the exported options, some with non-positive
    arguments. *)
Definition assorted : list gormdb.QueryOptFn :=
  [gormdb.Pagination 0 (-5); gormdb.OrderBy ["balance"];
   gormdb.Preload ["Cards"]; suppressing; gormdb.Pagination (-1) 0].

(** Update functions for the read-modify-write scenarios. *)
Definition deposit (amount : Z) : Account → Account * (bool * option error) :=
  λ a,
    (mkAccount (AccountID a) (Owner a) (Balance a + amount) (Relations a),
     (true, None)).
Definition inspect_only : Account → Account * (bool * option error) :=
  λ a, (a, (false, None)).
Definition reject : Account → Account * (bool * option error) :=
  λ a,
    (mkAccount (AccountID a) (Owner a) 0 (Relations a),
     (true, Some (ErrOther "insufficient funds"))).

End bank.

(* ===================================================================== *)
(** * Part II: properties                                                 *)
(* ===================================================================== *)

(** ** Field projection: [PluckFn] *)

Section PluckFn_facts.
Import utils.
Context {StructT FieldT : Type} `{!GoZero FieldT}.
Implicit Types (fn : SelectFn StructT FieldT) (items : list StructT)
  (result : list FieldT).

Lemma PluckFn_loop_length fn i items result :
  length (PluckFn_loop fn i items result) = length result.
Proof.
  revert i result. induction items as [|item rest IH]; intros i result.
  - reflexivity.
  - simpl. destruct (fn item) as [field add]. destruct add; simpl.
    + rewrite IH. apply length_insert.
    + apply IH.
Qed.

(** Positions before the loop index are never written again. *)
Lemma PluckFn_loop_before fn i items result j :
  (j < i)%nat → PluckFn_loop fn i items result !! j = result !! j.
Proof.
  revert i result. induction items as [|item rest IH]; intros i result Hj.
  - reflexivity.
  - simpl. destruct (fn item) as [field add]. destruct add; simpl.
    + rewrite IH by lia. apply list_lookup_insert_ne. lia.
    + apply IH. lia.
Qed.

(** The position of the [k]-th remaining item receives the selected field
    when the selector includes it, and keeps what it held otherwise. *)
Lemma PluckFn_loop_at fn i items result k item old :
  items !! k = Some item →
  result !! (i + k)%nat = Some old →
  PluckFn_loop fn i items result !! (i + k)%nat
  = Some (if (fn item).2 then (fn item).1 else old).
Proof.
  revert i result k. induction items as [|x rest IH]; intros i result k Hk Hold.
  - discriminate.
  - destruct k as [|k]; simpl in Hk.
    + injection Hk as ->. simpl. replace (i + 0)%nat with i in * by lia.
      destruct (fn item) as [field add]. destruct add; simpl.
      * rewrite PluckFn_loop_before by lia.
        apply list_lookup_insert_eq. by eapply lookup_lt_Some.
      * rewrite PluckFn_loop_before by lia. exact Hold.
    + replace (i + S k)%nat with (S i + k)%nat in * by lia.
      cbn [PluckFn_loop]. destruct (fn x) as [field add].
      destruct add; cbn [negb].
      * apply (IH (S i)); [exact Hk|].
        rewrite list_lookup_insert_ne by lia. exact Hold.
      * by apply (IH (S i)).
Qed.

End PluckFn_facts.

(** C2 (as amended).  [PluckFn] does not compact.  Its result always has
    exactly the length of the input; position [i] holds the value the
    selector extracted from record [i] when the selector included it, and
    the zero value of the field type when the selector excluded it. *)
Theorem PluckFn_keeps_positions {StructT FieldT : Type} `{!GoZero FieldT}
    (l : list StructT) (fn : utils.SelectFn StructT FieldT) :
  length (utils.PluckFn l fn) = length l
  ∧ ∀ (i : nat) (item : StructT),
      l !! i = Some item →
      utils.PluckFn l fn !! i
      = Some (if (fn item).2 then (fn item).1 else zero_value).
Proof.
  unfold utils.PluckFn. split.
  - rewrite PluckFn_loop_length. apply length_replicate.
  - intros i item Hi.
    apply (PluckFn_loop_at fn 0%nat l _ i item zero_value Hi).
    simpl. apply lookup_replicate_2. by eapply lookup_lt_Some.
Qed.

(** The example of the package's tests: Bob is excluded, and his position
    is kept, holding the empty string. *)
Lemma PluckFn_keeps_positions_witness :
  length (utils.PluckFn utils.users utils.older_than_28) = 3%nat
  ∧ utils.PluckFn utils.users utils.older_than_28 !! 1%nat = Some "".
Proof.
  destruct (PluckFn_keeps_positions utils.users utils.older_than_28)
    as [Hlen Hpos].
  split.
  - exact Hlen.
  - exact (Hpos 1%nat utils.bob eq_refl).
Defined.

(** C2 (as stated) fails: with a selector that excludes one of three
    records the result still has three positions, not two, the excluded
    record's position holds the default value, and the length equals the
    input length although the selector does exclude. *)
Lemma PluckFn_compaction_counterexample :
  utils.PluckFn utils.users utils.older_than_28 = ["Alice"; ""; "Charlie"]
  ∧ length (utils.PluckFn utils.users utils.older_than_28)
    ≠ length (filter (λ u, (utils.older_than_28 u).2 = true) utils.users)
  ∧ ¬ (length (utils.PluckFn utils.users utils.older_than_28)
       = length utils.users
       ↔ ∀ u, u ∈ utils.users → (utils.older_than_28 u).2 = true).
Proof.
  split; [reflexivity|]. split.
  - vm_compute. discriminate.
  - intros [Hall _].
    specialize (Hall eq_refl utils.bob).
    assert (utils.bob ∈ utils.users) as Hin
      by (unfold utils.users; set_solver).
    specialize (Hall Hin). vm_compute in Hall. discriminate.
Qed.
(** ** Set reconciliation: [SetCmp] *)

(** C7.  [SetCmp current target] returns [(added, overlapped, deleted)]
    which, read as sets, are [target − current], [current ∩ target] and
    [current − target]; hence [added] and [deleted] are disjoint,
    [added ∪ overlapped] is [target] and [deleted ∪ overlapped] is
    [current].  No element is listed twice in any of the three. *)
Theorem SetCmp_reconciles {E : Type} `{Countable E} (current target : list E) :
  let '(added, overlapped, deleted) := utils.SetCmp current target in
  let C : gset E := list_to_set current in
  let T : gset E := list_to_set target in
  (list_to_set added = T ∖ C
   ∧ list_to_set deleted = C ∖ T
   ∧ list_to_set overlapped = C ∩ T)
  ∧ (list_to_set added ∩ list_to_set deleted = (∅ : gset E)
     ∧ list_to_set added ∪ list_to_set overlapped = T
     ∧ list_to_set deleted ∪ list_to_set overlapped = C)
  ∧ (∀ x, x ∈ added ↔ x ∈ target ∧ x ∉ current)
  ∧ (∀ x, x ∈ deleted ↔ x ∈ current ∧ x ∉ target)
  ∧ (∀ x, x ∈ overlapped ↔ x ∈ current ∧ x ∈ target)
  ∧ NoDup added ∧ NoDup overlapped ∧ NoDup deleted.
Proof.
  unfold utils.SetCmp, utils.NewSet. cbv zeta.
  rewrite !list_to_set_elements_L.
  set (C := list_to_set current : gset E).
  set (T := list_to_set target : gset E).
  assert (∀ x, x ∈ C ↔ x ∈ current) as HC
    by (intros x; apply elem_of_list_to_set).
  assert (∀ x, x ∈ T ↔ x ∈ target) as HT
    by (intros x; apply elem_of_list_to_set).
  split; [done|]. split.
  { split_and!; apply set_eq; intros x.
    - rewrite elem_of_intersection, !elem_of_difference.
      rewrite elem_of_empty. tauto.
    - rewrite elem_of_union, elem_of_difference, elem_of_intersection.
      destruct (decide (x ∈ C)); tauto.
    - rewrite elem_of_union, elem_of_difference, elem_of_intersection.
      destruct (decide (x ∈ T)); tauto. }
  split_and!; try apply NoDup_elements; intros x; rewrite elem_of_elements.
  - rewrite elem_of_difference, HC, HT. tauto.
  - rewrite elem_of_difference, HC, HT. tauto.
  - rewrite elem_of_intersection, HC, HT. tauto.
Qed.

(** The scenario of the package's examples. *)
Example SetCmp_scenario :
  utils.SetCmp [1; 2; 3; 4] [3; 4; 5; 6] = ([5; 6], [3; 4], [2; 1]).
Proof. reflexivity. Qed.

(** ** Field keying: [FieldMapStructFn] and [FieldMapFieldFn] *)

Section Keying_facts.
Import utils.
Context {KeyT : Type} `{Countable KeyT} {ValueT StructT : Type}.
Implicit Types (fn keySel : SelectFn StructT KeyT)
  (valueSel : SelectFn StructT ValueT).

Lemma FieldMapStructFn_step_writes fn m item k :
  keys_struct fn k item → FieldMapStructFn_step fn m item !! k = Some item.
Proof.
  unfold keys_struct, FieldMapStructFn_step. intros ->. simpl.
  apply lookup_insert_eq.
Qed.

Lemma FieldMapStructFn_step_other fn m item k :
  ¬ keys_struct fn k item → FieldMapStructFn_step fn m item !! k = m !! k.
Proof.
  unfold keys_struct, FieldMapStructFn_step. intros Hno.
  destruct (fn item) as [field add]. destruct add; simpl; [|done].
  apply lookup_insert_ne. congruence.
Qed.

Lemma FieldMapFieldFn_step_writes keySel valueSel m item k :
  keys_field keySel valueSel k item →
  FieldMapFieldFn_step keySel valueSel m item !! k = Some (valueSel item).1.
Proof.
  unfold keys_field, FieldMapFieldFn_step. intros [-> Hv]. simpl.
  destruct (valueSel item) as [value addValue]. simpl in *. subst.
  simpl. apply lookup_insert_eq.
Qed.

Lemma FieldMapFieldFn_step_other keySel valueSel m item k :
  ¬ keys_field keySel valueSel k item →
  FieldMapFieldFn_step keySel valueSel m item !! k = m !! k.
Proof.
  unfold keys_field, FieldMapFieldFn_step. intros Hno.
  destruct (keySel item) as [key addKey]. destruct addKey; simpl; [|done].
  destruct (valueSel item) as [value addValue].
  destruct addValue; simpl; [|done].
  apply lookup_insert_ne. intros ->. by apply Hno.
Qed.

(** The generic loop argument: after folding a step that overwrites key
    [k] exactly at the records satisfying [P], the key holds what the last
    such record wrote. *)
Lemma fold_last_write {V : Type} (step : gmap KeyT V → StructT → gmap KeyT V)
    (P : StructT → Prop) (val : StructT → V) (k : KeyT) :
  (∀ m item, P item → step m item !! k = Some (val item)) →
  (∀ m item, ¬ P item → step m item !! k = m !! k) →
  ∀ (l : list StructT) (m : gmap KeyT V) (j : nat) (item : StructT),
    l !! j = Some item →
    P item →
    (∀ j' item', (j < j')%nat → l !! j' = Some item' → ¬ P item') →
    fold_left step l m !! k = Some (val item).
Proof.
  intros Hwrite Hother.
  assert (∀ l m, (∀ j' item', l !! j' = Some item' → ¬ P item') →
                 fold_left step l m !! k = m !! k) as Hkeep.
  { induction l as [|x l IH]; intros m Hno; [done|]. simpl.
    rewrite IH.
    - apply Hother. by apply (Hno 0%nat).
    - intros j' item' Hj'. by apply (Hno (S j')). }
  induction l as [|x l IH]; intros m j item Hj HP Hlast; [done|].
  destruct j as [|j]; simpl in *.
  - injection Hj as ->. rewrite Hkeep.
    + by apply Hwrite.
    + intros j' item' Hj'. apply (Hlast (S j')); [lia|done].
  - apply (IH _ j); [done..|].
    intros j' item' Hlt Hj'. apply (Hlast (S j')); [lia|done].
Qed.

End Keying_facts.

(** C9.  Last write wins.  When the records at positions [i < j] of the
    input produce the same key [k], and [j] is the last position producing
    it, [FieldMapStructFn] maps [k] to the record at [j] and
    [FieldMapFieldFn] maps [k] to the value extracted from the record at
    [j]. *)
Theorem FieldMap_last_write_wins {KeyT : Type} `{Countable KeyT}
    {ValueT StructT : Type}
    (keySel : utils.SelectFn StructT KeyT)
    (valueSel : utils.SelectFn StructT ValueT)
    (l : list StructT) (i j : nat) (earlier later : StructT) (k : KeyT) :
  (i < j)%nat →
  l !! i = Some earlier →
  l !! j = Some later →
  (utils.keys_struct keySel k earlier →
   utils.keys_struct keySel k later →
   (∀ j' item', (j < j')%nat → l !! j' = Some item' →
                ¬ utils.keys_struct keySel k item') →
   utils.FieldMapStructFn l keySel !! k = Some later)
  ∧ (utils.keys_field keySel valueSel k earlier →
     utils.keys_field keySel valueSel k later →
     (∀ j' item', (j < j')%nat → l !! j' = Some item' →
                  ¬ utils.keys_field keySel valueSel k item') →
     utils.FieldMapFieldFn l keySel valueSel !! k = Some (valueSel later).1).
Proof.
  intros _ _ Hj. split; intros _ Hlater Hlast.
  - unfold utils.FieldMapStructFn.
    apply (fold_last_write _ (utils.keys_struct keySel k) (λ item, item) k)
      with (j := j); auto.
    + intros m item. apply FieldMapStructFn_step_writes.
    + intros m item. apply FieldMapStructFn_step_other.
  - unfold utils.FieldMapFieldFn.
    apply (fold_last_write _ (utils.keys_field keySel valueSel k)
             (λ item, (valueSel item).1) k) with (j := j); auto.
    + intros m item. apply FieldMapFieldFn_step_writes.
    + intros m item. apply FieldMapFieldFn_step_other.
Qed.

(** Alice and Zed share ID 1; Zed comes last and is the one the maps keep. *)
Lemma FieldMap_last_write_wins_witness :
  utils.FieldMapStructFn utils.shared_id (utils.SelectAll utils.ID) !! 1
  = Some utils.zed
  ∧ utils.FieldMapFieldFn utils.shared_id (utils.SelectAll utils.ID)
      (utils.SelectAll utils.Name) !! 1
    = Some "Zed".
Proof.
  destruct (FieldMap_last_write_wins (utils.SelectAll utils.ID)
              (utils.SelectAll utils.Name) utils.shared_id 0 2
              utils.alice utils.zed 1) as [Hstruct Hfield].
  - repeat constructor.
  - reflexivity.
  - reflexivity.
  - split.
    + apply Hstruct; [reflexivity | reflexivity |].
      intros j' item' Hlt Hj'.
      destruct j' as [|[|[|j']]]; [exfalso; lia..|discriminate].
    + apply Hfield; [by split | by split |].
      intros j' item' Hlt Hj'.
      destruct j' as [|[|[|j']]]; [exfalso; lia..|discriminate].
Defined.

(** ** Query options *)

Section Options_facts.
Import gormdb.

Lemma BuildOpt_loop_fold (c : QueryOpt.t) (opts : list QueryOptFn) :
  BuildOpt_loop c opts = fold_left (λ c fn, fn c) opts c.
Proof.
  revert c. induction opts as [|fn rest IH]; intros c; [done|]. apply IH.
Qed.

Lemma BuildOpt_snoc (opts : list QueryOptFn) (fn : QueryOptFn) :
  BuildOpt (opts ++ [fn]) = fn (BuildOpt opts).
Proof.
  unfold BuildOpt. rewrite !BuildOpt_loop_fold. apply fold_left_app.
Qed.

Lemma public_opt_pages_positive (fn : QueryOptFn) (c : QueryOpt.t) :
  public_opt fn → pages_positive c → pages_positive (fn c).
Proof.
  unfold pages_positive.
  intros Hfn [Hn Hs]. destruct Hfn as [p s| | |errFn fn Hmk]; simpl.
  - unfold Pagination.
    destruct (decide (p > 0)), (decide (s > 0)); simpl; lia.
  - done.
  - done.
  - destruct errFn as [f|]; [|discriminate].
    injection Hmk as <-. done.
Qed.

Lemma BuildOpt_loop_pages_positive (opts : list QueryOptFn) (c : QueryOpt.t) :
  Forall public_opt opts → pages_positive c →
  pages_positive (BuildOpt_loop c opts).
Proof.
  intros Hopts. revert c.
  induction Hopts as [|fn rest Hfn _ IH]; intros c Hc; [done|].
  simpl. apply IH. by apply public_opt_pages_positive.
Qed.

Lemma BuildOpt_pages_positive (opts : list QueryOptFn) :
  Forall public_opt opts → pages_positive (BuildOpt opts).
Proof.
  intros Hopts. apply BuildOpt_loop_pages_positive; [done|].
  split; simpl; lia.
Qed.

End Options_facts.

(** C8.  [BuildOpt] folds the option functions from left to right over the
    default configuration, whose page number is 1, page size 50, and whose
    pagination and suppression flags are off.  [Pagination] always turns
    pagination on; a non-positive page number leaves the page number as it
    was and a non-positive page size leaves the page size as it was, so
    that on the default configuration they stay 1 and 50. *)
Theorem BuildOpt_defaults_Pagination_guard :
  (∀ opts, gormdb.BuildOpt opts
           = fold_left (λ c fn, fn c) opts gormdb.NewQueryOpt)
  ∧ (gormdb.QueryOpt.PageNumber gormdb.NewQueryOpt = 1
     ∧ gormdb.QueryOpt.PageSize gormdb.NewQueryOpt = 50
     ∧ gormdb.QueryOpt.Paginate gormdb.NewQueryOpt = false
     ∧ gormdb.QueryOpt.OmitNotFoundErr gormdb.NewQueryOpt = false)
  ∧ (∀ pageNumber pageSize c,
       let c' := gormdb.Pagination pageNumber pageSize c in
       gormdb.QueryOpt.Paginate c' = true
       ∧ (pageNumber <= 0 →
          gormdb.QueryOpt.PageNumber c' = gormdb.QueryOpt.PageNumber c)
       ∧ (pageSize <= 0 →
          gormdb.QueryOpt.PageSize c' = gormdb.QueryOpt.PageSize c)
       ∧ (0 < pageNumber → gormdb.QueryOpt.PageNumber c' = pageNumber)
       ∧ (0 < pageSize → gormdb.QueryOpt.PageSize c' = pageSize))
  ∧ (∀ pageNumber pageSize,
       let c' := gormdb.BuildOpt [gormdb.Pagination pageNumber pageSize] in
       gormdb.QueryOpt.Paginate c' = true
       ∧ (pageNumber <= 0 → gormdb.QueryOpt.PageNumber c' = 1)
       ∧ (pageSize <= 0 → gormdb.QueryOpt.PageSize c' = 50)).
Proof.
  split; [intros opts; apply BuildOpt_loop_fold|].
  split; [done|].
  split.
  - intros p s c. unfold gormdb.Pagination. cbv zeta.
    destruct (decide (p > 0)), (decide (s > 0)); simpl;
      repeat split; intros; solve [reflexivity | lia].
  - intros p s. unfold gormdb.BuildOpt, gormdb.Pagination. simpl.
    destruct (decide (p > 0)), (decide (s > 0)); simpl;
      repeat split; intros; solve [reflexivity | lia].
Qed.

(** [Pagination(0, -3)] on the defaults: pagination on, page 1, size 50. *)
Lemma BuildOpt_defaults_Pagination_guard_witness :
  gormdb.QueryOpt.Paginate (gormdb.BuildOpt [gormdb.Pagination 0 (-3)]) = true
  ∧ gormdb.QueryOpt.PageNumber (gormdb.BuildOpt [gormdb.Pagination 0 (-3)]) = 1
  ∧ gormdb.QueryOpt.PageSize (gormdb.BuildOpt [gormdb.Pagination 0 (-3)]) = 50.
Proof.
  destruct BuildOpt_defaults_Pagination_guard as (_ & _ & _ & Hdefault).
  destruct (Hdefault 0 (-3)) as (Hon & Hpage & Hsize).
  split; [exact Hon|]. split.
  - apply Hpage. discriminate.
  - apply Hsize. discriminate.
Defined.

(** ** The backing store *)

Section Store_facts.
Import gorm.
Context {T : Type} `{!Model T}.
Implicit Types (st : Statement) (db : DB T) (r dest : T).

Lemma fold_Preload_clauses st (l : list string) :
  Where_ (fold_left Preload l st) = Where_ st
  ∧ Not_ (fold_left Preload l st) = Not_ st
  ∧ Orders (fold_left Preload l st) = Orders st
  ∧ Preloads (fold_left Preload l st) = Preloads st ++ l
  ∧ Offset_ (fold_left Preload l st) = Offset_ st
  ∧ Limit_ (fold_left Preload l st) = Limit_ st.
Proof.
  revert st. induction l as [|x l IH]; intros st; simpl.
  - by rewrite app_nil_r.
  - destruct (IH (Preload st x)) as (-> & -> & -> & -> & -> & ->). simpl.
    by rewrite <- app_assoc.
Qed.

Lemma fold_Order_clauses st (l : list string) :
  Where_ (fold_left Order l st) = Where_ st
  ∧ Not_ (fold_left Order l st) = Not_ st
  ∧ Orders (fold_left Order l st) = Orders st ++ l
  ∧ Preloads (fold_left Order l st) = Preloads st
  ∧ Offset_ (fold_left Order l st) = Offset_ st
  ∧ Limit_ (fold_left Order l st) = Limit_ st.
Proof.
  revert st. induction l as [|x l IH]; intros st; simpl.
  - by rewrite app_nil_r.
  - destruct (IH (Order st x)) as (-> & -> & -> & -> & -> & ->). simpl.
    by rewrite <- app_assoc.
Qed.

(** What a statement matches, and what it selects, depends on its
    conditions (and, for the selection, its order clauses) only. *)
Lemma matches_ext st st' r :
  Where_ st = Where_ st' → Not_ st = Not_ st' → matches st r = matches st' r.
Proof. unfold matches. by intros -> ->. Qed.

Lemma filter_matches_ext st st' (rs : list T) :
  Where_ st = Where_ st' → Not_ st = Not_ st' →
  filter (λ r, matches st r = true) rs = filter (λ r, matches st' r = true) rs.
Proof.
  intros HW HN. apply list_filter_iff. intros r.
  by rewrite (matches_ext st st' r HW HN).
Qed.

Lemma selected_ext st st' (rs : list T) :
  Where_ st = Where_ st' → Not_ st = Not_ st' → Orders st = Orders st' →
  selected st rs = selected st' rs.
Proof.
  intros HW HN HO. unfold selected.
  by rewrite HO, (filter_matches_ext st st' rs HW HN).
Qed.

Lemma selected_fold_Preload st (l : list string) (rs : list T) :
  selected (fold_left Preload l st) rs = selected st rs.
Proof.
  destruct (fold_Preload_clauses st l) as (HW & HN & HO & _).
  by apply selected_ext.
Qed.

Lemma no_fault_next (k : nat) db : no_fault (S k) db → next_fault db = None.
Proof.
  unfold no_fault, next_fault. destruct (faults db) as [|f fs]; [done|].
  simpl. by intros [-> _]%Forall_cons.
Qed.

Lemma no_fault_exec (k : nat) (ev : Event T) db :
  no_fault (S k) db → no_fault k (exec ev db).1.
Proof.
  unfold no_fault. simpl. destruct (faults db) as [|f fs]; simpl.
  - intros _. destruct k; constructor.
  - by intros [_ ?]%Forall_cons.
Qed.

Lemma First_fault st dest db (e : error) :
  next_fault db = Some e →
  First st dest db = ((exec (EvFirst st) db).1, (dest, Some e)).
Proof. unfold First, exec. by intros ->. Qed.

Lemma First_not_found st dest db :
  next_fault db = None → selected st (rows db) = [] →
  First st dest db = ((exec (EvFirst st) db).1, (dest, Some ErrRecordNotFound)).
Proof. unfold First, exec. by intros -> ->. Qed.

Lemma First_found st dest db r (rest : list T) :
  next_fault db = None → selected st (rows db) = r :: rest →
  First st dest db = ((exec (EvFirst st) db).1, (loaded st r, None)).
Proof. unfold First, exec. by intros -> ->. Qed.

End Store_facts.

(** ** [Get] and [Delete] *)

Section Get_facts.
Import gormdb.
Context {T : Type} `{!gorm.Model T} `{!GoZero T}.
Implicit Types (query : Query.t) (opts : list QueryOptFn) (db : gorm.DB T).

(** The statement [Get] hands to the store. *)
Lemma Get_statement query opts :
  let st := fold_left gorm.Preload (QueryOpt.Preloads (BuildOpt opts))
              (scope query) in
  gorm.Where_ st = Query.q query
  ∧ gorm.Not_ st = Query.not query
  ∧ gorm.Orders st = []
  ∧ gorm.Preloads st = QueryOpt.Preloads (BuildOpt opts).
Proof.
  intros st. subst st.
  destruct (fold_Preload_clauses (scope query)
              (QueryOpt.Preloads (BuildOpt opts))) as (-> & -> & -> & -> & _).
  simpl. by rewrite !(right_id_L ∅ (∪)).
Qed.

(** Without suppression [Get] never returns an error, whatever the store
    answered. *)
Lemma Get_without_suppression query opts db :
  QueryOpt.OmitNotFoundErr (BuildOpt opts) = false →
  ∃ db' result, Get query opts db = Done (db', (Some result, None)).
Proof.
  intros Hoff. unfold Get.
  destruct (gorm.First _ _ db) as [db' [result [e|]]]; rewrite ?Hoff;
    by eexists _, _.
Qed.

(** Likewise [Delete]. *)
Lemma Delete_without_suppression query opts db :
  QueryOpt.OmitNotFoundErr (BuildOpt opts) = false →
  ∃ db', Delete query opts db = Done (db', None).
Proof.
  intros Hoff. unfold Delete.
  destruct (gorm.Delete _ db) as [db' [e|]]; rewrite ?Hoff; by eexists.
Qed.

(** When a record is found, it is returned with the requested relations
    loaded, in the order they were requested. *)
Lemma Get_found_preloaded query opts db (r : T) (rest : list T) :
  gorm.next_fault db = None →
  gorm.selected (scope query) (gorm.rows db) = r :: rest →
  ∃ db',
    Get query opts db
    = Done (db', (Some (fold_left (λ r relation, gorm.preload relation r)
                          (QueryOpt.Preloads (BuildOpt opts)) r), None)).
Proof.
  intros Hok Hsel. unfold Get.
  rewrite (First_found _ _ _ r rest Hok)
    by (by rewrite selected_fold_Preload).
  unfold gorm.loaded.
  destruct (Get_statement query opts) as (_ & _ & _ & ->).
  by eexists.
Qed.

(** An [OrderBy] option makes no difference to [Get]. *)
Lemma Get_OrderBy_irrelevant query opts (orderBy : list string) db :
  Get query (opts ++ [OrderBy orderBy]) db = Get query opts db.
Proof. unfold Get. by rewrite BuildOpt_snoc. Qed.

End Get_facts.

(** C1 (the code departs from it).  A query for account 99, which the
    store does not hold, with no option at all: the store answers
    "record not found", yet [Get] returns a zero record and a nil error.
    [Delete] against an unreachable store, again with no option, returns
    nil although nothing was deleted. *)
Theorem Get_swallows_not_found :
  gorm.First (gormdb.scope (gormdb.Q {["id" := AInt 99]})) zero_value
    bank.store
  = ((gorm.exec (gorm.EvFirst (gormdb.scope (gormdb.Q {["id" := AInt 99]})))
        bank.store).1,
     (zero_value, Some ErrRecordNotFound))
  ∧ gormdb.Get (gormdb.Q {["id" := AInt 99]}) [] bank.store
    = Done ((gorm.exec
               (gorm.EvFirst (gormdb.scope (gormdb.Q {["id" := AInt 99]})))
               bank.store).1,
            (Some (bank.mkAccount 0 "" 0 []), None))
  ∧ ∃ db',
      gormdb.Delete (gormdb.Q {["id" := AInt 2]}) [] bank.unreachable
      = Done (db', None)
      ∧ gorm.rows db' = bank.accounts.
Proof.
  split; [by vm_compute|]. split; [by vm_compute|].
  eexists. split; by vm_compute.
Qed.

(** C5 (the code departs from it).  Asked for the account with the
    highest balance first, [Get] still returns the first account in
    primary-key order, exactly as without the ordering option, whereas
    [List] with the same option puts the richest account first.  The
    preload option is honoured. *)
Theorem Get_ignores_OrderBy :
  (∃ db',
     gormdb.Get (gormdb.Q ∅)
       [gormdb.OrderBy ["balance desc"]; gormdb.Preload ["Cards"]] bank.store
     = Done (db', (Some (bank.mkAccount 1 "ann" 20 ["Cards"]), None)))
  ∧ (∃ db' items,
       gormdb.List (gormdb.Q ∅)
         [gormdb.OrderBy ["balance desc"]; gormdb.Preload ["Cards"]]
         bank.store
       = Done (db', (Some (gormdb.ListRes.mk
                             (bank.mkAccount 5 "eve" 90 ["Cards"] :: items)
                             0 50 0 1), None))).
Proof.
  split.
  - eexists. by vm_compute.
  - eexists _, _. by vm_compute.
Qed.

(** C6 (as amended).  The repository never looks inside an error.  When
    suppression is configured with mapping function [f], [Get] and
    [Delete] apply [f] to whatever error the store reports, a fault of the
    store as much as "record not found", and return [f]'s result in its
    place; telling the errors apart is left to [f]. *)
Theorem suppression_maps_every_error {T : Type} `{!gorm.Model T} `{!GoZero T}
    (query : gormdb.Query.t) (opts : list gormdb.QueryOptFn)
    (db : gorm.DB T) (f : error → option error) :
  gormdb.QueryOpt.OmitNotFoundErr (gormdb.BuildOpt opts) = true →
  gormdb.QueryOpt.OmitNotFoundErrFn (gormdb.BuildOpt opts) = Some f →
  (∀ e, gorm.next_fault db = Some e →
        ∃ db', gormdb.Get query opts db = Done (db', (None, f e)))
  ∧ (gorm.next_fault db = None →
     gorm.selected (gormdb.scope query) (gorm.rows db) = [] →
     ∃ db', gormdb.Get query opts db
            = Done (db', (None, f ErrRecordNotFound)))
  ∧ (∀ e, gorm.next_fault db = Some e →
          ∃ db', gormdb.Delete query opts db = Done (db', f e)).
Proof.
  intros Hon Hfn. split; [|split].
  - intros e He. unfold gormdb.Get.
    rewrite (First_fault _ _ _ e He), Hon.
    unfold gormdb.call_OmitNotFoundErrFn. rewrite Hfn. by eexists.
  - intros Hok Hnone. unfold gormdb.Get.
    rewrite First_not_found by (by rewrite ?selected_fold_Preload).
    rewrite Hon. unfold gormdb.call_OmitNotFoundErrFn. rewrite Hfn.
    by eexists.
  - intros e He. unfold gormdb.Delete, gorm.Delete, gorm.exec.
    rewrite He, Hon. unfold gormdb.call_OmitNotFoundErrFn. rewrite Hfn.
    by eexists.
Qed.

(** Both kinds of error reach the mapping function: the unreachable store's
    fault on a query for an account that exists, and "record not found" on
    a query for one that does not. *)
Lemma suppression_maps_every_error_witness :
  (∃ db', gormdb.Get (gormdb.Q {["id" := AInt 2]}) [bank.suppressing]
            bank.unreachable
          = Done (db', (None,
                        bank.to_sentinel (ErrOther "connection refused"))))
  ∧ (∃ db', gormdb.Get (gormdb.Q {["id" := AInt 99]}) [bank.suppressing]
              bank.store
            = Done (db', (None, bank.to_sentinel ErrRecordNotFound))).
Proof.
  split.
  - destruct (suppression_maps_every_error
                (gormdb.Q {["id" := AInt 2]}) [bank.suppressing]
                bank.unreachable bank.to_sentinel eq_refl eq_refl)
      as (Hfault & _ & _).
    exact (Hfault (ErrOther "connection refused") eq_refl).
  - destruct (suppression_maps_every_error
                (gormdb.Q {["id" := AInt 99]}) [bank.suppressing]
                bank.store bank.to_sentinel eq_refl eq_refl)
      as (_ & Hnone & _).
    apply Hnone; [reflexivity | by vm_compute].
Defined.

(** C6 (as stated) fails: the store is unreachable, which is not the
    not-found condition (account 2 exists), and still the mapping function
    is applied and its result returned instead of the store's error, by
    [Get] and by [Delete]. *)
Lemma suppression_not_selective_counterexample :
  gormdb.OmitNotFoundErr (Some bank.to_sentinel) = Done bank.suppressing
  ∧ gorm.next_fault bank.unreachable = Some (ErrOther "connection refused")
  ∧ ErrOther "connection refused" ≠ ErrRecordNotFound
  ∧ (∃ db', gormdb.Get (gormdb.Q {["id" := AInt 2]}) [bank.suppressing]
              bank.unreachable
            = Done (db', (None, Some (ErrOther "no such account"))))
  ∧ (∃ db', gormdb.Delete (gormdb.Q {["id" := AInt 2]}) [bank.suppressing]
              bank.unreachable
            = Done (db', Some (ErrOther "no such account")))
  ∧ Some (ErrOther "no such account")
    ≠ Some (ErrOther "connection refused").
Proof.
  split; [reflexivity|]. split; [reflexivity|]. split; [discriminate|].
  split; [eexists; by vm_compute|]. split; [eexists; by vm_compute|].
  discriminate.
Qed.

(** ** Machine arithmetic *)

Section GoInt_facts.

Lemma wrap_in_range (z : Z) : GoInt.in_range z → GoInt.wrap z = z.
Proof.
  unfold GoInt.in_range, GoInt.wrap, GoInt.min_int, GoInt.max_int.
  intros Hz. rewrite Z.mod_small; lia.
Qed.

Lemma wrap_range (z : Z) : GoInt.in_range (GoInt.wrap z).
Proof.
  unfold GoInt.in_range, GoInt.wrap, GoInt.min_int, GoInt.max_int.
  pose proof (Z.mod_pos_bound (z + 2 ^ 63) (2 ^ 64)). lia.
Qed.

(** Wrapping a factor first does not change the wrapped product. *)
Lemma wrap_mul_wrap_l (a b : Z) :
  GoInt.wrap (GoInt.wrap a * b) = GoInt.wrap (a * b).
Proof.
  unfold GoInt.wrap. f_equal.
  rewrite (Z.mod_eq (a + 2 ^ 63) (2 ^ 64)) by lia.
  replace ((a + 2 ^ 63 - 2 ^ 64 * ((a + 2 ^ 63) / 2 ^ 64) - 2 ^ 63) * b
           + 2 ^ 63)
    with (a * b + 2 ^ 63 + (- ((a + 2 ^ 63) / 2 ^ 64) * b) * 2 ^ 64) by ring.
  apply Z.mod_add. lia.
Qed.

(** The offset expression [(pageNumber - 1) * pageSize], when the product
    fits in an [int]. *)
Lemma offset_exact (pageNumber pageSize : Z) :
  GoInt.in_range ((pageNumber - 1) * pageSize) →
  GoInt.mul (GoInt.sub pageNumber 1) pageSize = (pageNumber - 1) * pageSize.
Proof.
  intros Hfit. unfold GoInt.mul, GoInt.sub.
  rewrite wrap_mul_wrap_l. by apply wrap_in_range.
Qed.

(** The page-count arithmetic of [List]: quotient, plus one when the
    remainder is positive, is the ceiling of [total / pageSize]. *)
Lemma page_count_ceil (total pageSize : Z) :
  0 <= total <= GoInt.max_int → 1 <= pageSize →
  GoInt.quo total pageSize = Some (total / pageSize)
  ∧ GoInt.rem total pageSize = Some (total mod pageSize)
  ∧ (if decide (total mod pageSize > 0)
     then GoInt.add (total / pageSize) 1 else total / pageSize)
    = (total + pageSize - 1) / pageSize.
Proof.
  intros Hn Hs. unfold GoInt.quo, GoInt.rem, GoInt.add.
  destruct (decide (pageSize = 0)); [lia|].
  rewrite Z.quot_div_nonneg, Z.rem_mod_nonneg by lia.
  pose proof (Z.div_mod total pageSize ltac:(lia)) as Hdm.
  pose proof (Z.mod_pos_bound total pageSize ltac:(lia)) as Hr.
  assert (0 <= total / pageSize <= total) as Hq.
  { split; [apply Z.div_pos; lia|]. apply Z.div_le_upper_bound; nia. }
  unfold GoInt.max_int in *.
  rewrite wrap_in_range
    by (unfold GoInt.in_range, GoInt.min_int, GoInt.max_int; lia).
  split; [done|]. split; [done|].
  destruct (decide (total mod pageSize > 0)) as [Hpos|Hzero].
  - assert (total / pageSize + 1 <= total) by nia.
    rewrite wrap_in_range
      by (unfold GoInt.in_range, GoInt.min_int, GoInt.max_int; lia).
    apply (Z.div_unique _ _ _ (total mod pageSize - 1)); lia.
  - apply (Z.div_unique _ _ _ (pageSize - 1)); lia.
Qed.

(** The ceiling, characterised: the least number of pages of [pageSize]
    records that hold [total] records. *)
Lemma ceil_least (total pageSize : Z) :
  0 <= total → 1 <= pageSize →
  ((total + pageSize - 1) / pageSize - 1) * pageSize < total
  ∧ total <= (total + pageSize - 1) / pageSize * pageSize.
Proof.
  intros Hn Hs.
  pose proof (Z.div_mod (total + pageSize - 1) pageSize ltac:(lia)) as Hdm.
  pose proof (Z.mod_pos_bound (total + pageSize - 1) pageSize ltac:(lia)).
  nia.
Qed.

End GoInt_facts.

(** ** [List] *)

Section List_facts.
Import gormdb.
Context {T : Type} `{!gorm.Model T} `{!GoZero T}.
Implicit Types (query : Query.t) (opts : list QueryOptFn) (db : gorm.DB T).

(** [List] only panics where its page-count arithmetic does. *)
Lemma List_done query opts db :
  QueryOpt.PageSize (BuildOpt opts) ≠ 0 →
  ∃ r, List query opts db = Done r.
Proof.
  intros Hs. unfold List. unfold GoInt.quo, GoInt.rem.
  destruct (QueryOpt.Paginate (BuildOpt opts)).
  - destruct (gorm.Count _ _ db) as [db1 [total [e|]]]; [by eexists|].
    destruct (gorm.Find _ _ db1) as [db2 [results [e|]]]; [by eexists|].
    simpl. destruct (decide (QueryOpt.PageSize (BuildOpt opts) = 0)); [done|].
    simpl. by eexists.
  - destruct (gorm.Find _ _ db) as [db2 [results [e|]]]; [by eexists|].
    destruct (decide (QueryOpt.PageSize (BuildOpt opts) = 0)); [done|].
    simpl. by eexists.
Qed.

End List_facts.

(** C4 (as amended).  [List] with pagination enabled, page [p] and page
    size [s >= 1] from the built options, against a store that answers both
    statements: the count statement comes first, carries the predicate (and
    no offset, limit or preload) and yields the number [n] of rows matching
    the predicate; the fetch statement follows with limit [s] and with the
    offset [(p-1)*s] as Go's [int] arithmetic computes it, which is the
    exact product whenever that product fits in an [int] and its
    wrap-around otherwise; the result reports total [n], page size [s],
    page [p] and page count [ceil(n/s)]. *)
Theorem List_paginates {T : Type} `{!gorm.Model T} `{!GoZero T}
    (query : gormdb.Query.t) (opts : list gormdb.QueryOptFn)
    (db : gorm.DB T) :
  let o := gormdb.BuildOpt opts in
  let p := gormdb.QueryOpt.PageNumber o in
  let s := gormdb.QueryOpt.PageSize o in
  let n := Z.of_nat (length (filter
             (λ r, gorm.matches (gormdb.scope query) r = true)
             (gorm.rows db))) in
  let counting :=
    fold_left gorm.Order (gormdb.QueryOpt.OrderBy o) (gormdb.scope query) in
  let offset := GoInt.mul (GoInt.sub p 1) s in
  let fetching :=
    fold_left gorm.Preload (gormdb.QueryOpt.Preloads o)
      (gorm.Limit (gorm.Offset counting offset) s) in
  gormdb.QueryOpt.Paginate o = true →
  1 <= s →
  n <= GoInt.max_int →
  gorm.no_fault 2 db →
  ∃ db' res,
    gormdb.List query opts db = Done (db', (Some res, None))
    ∧ gorm.trace db'
      = gorm.trace db ++ [gorm.EvCount counting; gorm.EvFind fetching]
    ∧ (gorm.Where_ counting = gormdb.Query.q query
       ∧ gorm.Not_ counting = gormdb.Query.not query
       ∧ gorm.Preloads counting = []
       ∧ gorm.Offset_ counting = 0
       ∧ gorm.Limit_ counting = None)
    ∧ gormdb.ListRes.Total res = n
    ∧ (gorm.Offset_ fetching = offset
       ∧ (GoInt.in_range ((p - 1) * s) → offset = (p - 1) * s)
       ∧ gorm.Limit_ fetching = Some s)
    ∧ gormdb.ListRes.Items res
      = gorm.loaded fetching
        <$> gorm.window fetching (gorm.selected counting (gorm.rows db))
    ∧ (gormdb.ListRes.PageCount res = (n + s - 1) / s
       ∧ (gormdb.ListRes.PageCount res - 1) * s < n
       ∧ n <= gormdb.ListRes.PageCount res * s)
    ∧ gormdb.ListRes.PageSize res = s
    ∧ gormdb.ListRes.Page res = p.
Proof.
  intros o p s n counting offset fetching Hpag Hs Hn Hok.
  assert (gorm.next_fault db = None) as Hok1 by (by eapply no_fault_next).
  pose proof (no_fault_exec 1 (gorm.EvCount counting) db Hok) as Hok'.
  apply no_fault_next in Hok'.
  destruct (fold_Order_clauses (gormdb.scope query)
              (gormdb.QueryOpt.OrderBy o)) as (HW & HN & HO & HP & HF & HL).
  destruct (fold_Preload_clauses (gorm.Limit (gorm.Offset counting offset) s)
              (gormdb.QueryOpt.Preloads o))
    as (HW' & HN' & HO' & HP' & HF' & HL').
  fold counting in HW, HN, HO, HP, HF, HL.
  fold fetching in HW', HN', HO', HP', HF', HL'.
  assert (0 <= n) as Hn0 by (subst n; lia).
  destruct (page_count_ceil n s) as (Hquo & Hrem & Hceil); [lia|lia|].
  destruct (ceil_least n s) as [Hlow Hhigh]; [lia|lia|].
  unfold gormdb.List. fold o. rewrite Hpag. fold counting.
  unfold gorm.Count. 
  destruct (gorm.exec (gorm.EvCount counting) db) as [db1 fault1] eqn:Hexec1.
  assert (fault1 = None) as -> by (unfold gorm.exec in Hexec1; congruence).
  assert (db1 = (gorm.exec (gorm.EvCount counting) db).1) as Hdb1
    by (by rewrite Hexec1).
  rewrite (filter_matches_ext counting (gormdb.scope query)) by done.
  fold n. cbn [gormdb.QueryOpt.set_TotalCount gormdb.QueryOpt.PageNumber
    gormdb.QueryOpt.PageSize gormdb.QueryOpt.Preloads
    gormdb.QueryOpt.TotalCount].
  fold p s offset fetching.
  unfold gorm.Find.
  destruct (gorm.exec (gorm.EvFind fetching) db1) as [db2 fault2] eqn:Hexec2.
  assert (fault2 = None) as ->.
  { unfold gorm.exec in Hexec2. rewrite Hdb1 in Hexec2. congruence. }
  rewrite Hquo, Hrem. cbn [or_panic mbind outcome_bind mret outcome_ret].
  rewrite Hceil.
  eexists _, _. split; [reflexivity|].
  cbn [gormdb.ListRes.Items gormdb.ListRes.Total gormdb.ListRes.PageSize
    gormdb.ListRes.PageCount gormdb.ListRes.Page].
  split_and!; try done.
  - unfold gorm.exec in Hexec1, Hexec2. 
    injection Hexec2 as <- _. injection Hexec1 as <- _. simpl.
    by rewrite <- app_assoc.
  - rewrite HW. simpl. apply (right_id_L ∅ (∪)).
  - rewrite HN. simpl. apply (right_id_L ∅ (∪)).
  - apply offset_exact.
  - f_equal. f_equal.
    rewrite Hdb1. simpl. apply selected_ext; [by rewrite HW'|by rewrite HN'|].
    by rewrite HO'.
Qed.

(** The scenario of the specification: five matching records, page 2 of
    size 2. *)
Lemma List_paginates_witness :
  ∃ db' res,
    gormdb.List (gormdb.Q ∅) [gormdb.Pagination 2 2] bank.store
    = Done (db', (Some res, None))
    ∧ gormdb.ListRes.Total res = 5
    ∧ gormdb.ListRes.Items res = [bank.cay; bank.dov]
    ∧ gormdb.ListRes.PageCount res = 3.
Proof.
  destruct (List_paginates (gormdb.Q ∅) [gormdb.Pagination 2 2] bank.store)
    as (db' & res & HList & _ & _ & Htotal & _ & Hitems & (Hcount & _) & _).
  - reflexivity.
  - by vm_compute.
  - by vm_compute.
  - constructor.
  - exists db', res. split; [exact HList|]. split; [exact Htotal|].
    split; [exact Hitems|exact Hcount].
Defined.

(** C4 (as stated) fails: the largest page number with page size 2 is
    accepted by [Pagination], the product [(p-1)*s] does not fit in an
    [int], the offset handed to the store is its wrap-around, -4, and the
    page returned holds the first two accounts. *)
Lemma List_offset_wraps_counterexample :
  gormdb.QueryOpt.PageNumber
    (gormdb.BuildOpt [gormdb.Pagination GoInt.max_int 2]) = GoInt.max_int
  ∧ gormdb.QueryOpt.PageSize
      (gormdb.BuildOpt [gormdb.Pagination GoInt.max_int 2]) = 2
  ∧ (GoInt.max_int - 1) * 2 = 18446744073709551612
  ∧ ∃ db' counting fetching res,
      gormdb.List (gormdb.Q ∅) [gormdb.Pagination GoInt.max_int 2] bank.store
      = Done (db', (Some res, None))
      ∧ gorm.trace db' = [gorm.EvCount counting; gorm.EvFind fetching]
      ∧ gorm.Offset_ fetching = -4
      ∧ gorm.Offset_ fetching ≠ (GoInt.max_int - 1) * 2
      ∧ gormdb.ListRes.Items res = [bank.ann; bank.ben].
Proof.
  split; [reflexivity|]. split; [reflexivity|]. split; [reflexivity|].
  eexists _, _, _, _. split; [by vm_compute|].
  split; [reflexivity|]. split; [reflexivity|]. split; [discriminate|].
  reflexivity.
Qed.

(** C10.  Whatever sequence of the exported option constructors
    [Pagination], [OrderBy], [Preload] and [OmitNotFoundErr] is built, with
    whatever arguments, the page number and the page size of the result
    are at least 1; so neither the division nor the remainder by the page
    size in [List] has a zero divisor, and [List] does not panic. *)
Theorem public_options_pages_positive {T : Type} `{!gorm.Model T}
    `{!GoZero T} (opts : list gormdb.QueryOptFn) :
  Forall gormdb.public_opt opts →
  1 <= gormdb.QueryOpt.PageNumber (gormdb.BuildOpt opts)
  ∧ 1 <= gormdb.QueryOpt.PageSize (gormdb.BuildOpt opts)
  ∧ (∀ total,
       is_Some (GoInt.quo total (gormdb.QueryOpt.PageSize
                                   (gormdb.BuildOpt opts)))
       ∧ is_Some (GoInt.rem total (gormdb.QueryOpt.PageSize
                                     (gormdb.BuildOpt opts))))
  ∧ (∀ (query : gormdb.Query.t) (db : gorm.DB T),
       ∃ r, gormdb.List query opts db = Done r).
Proof.
  intros Hopts. destruct (BuildOpt_pages_positive opts Hopts) as [Hp Hs].
  split; [exact Hp|]. split; [exact Hs|]. split.
  - intros total. unfold GoInt.quo, GoInt.rem.
    destruct (decide (_ = 0)); [lia|]. by split.
  - intros query db. apply List_done. lia.
Qed.

Lemma public_options_pages_positive_witness :
  1 <= gormdb.QueryOpt.PageNumber (gormdb.BuildOpt bank.assorted)
  ∧ 1 <= gormdb.QueryOpt.PageSize (gormdb.BuildOpt bank.assorted)
  ∧ ∃ r, gormdb.List (gormdb.Q ∅) bank.assorted bank.store = Done r.
Proof.
  destruct (public_options_pages_positive (T := bank.Account) bank.assorted)
    as (Hp & Hs & _ & Hlist).
  - unfold bank.assorted.
    apply Forall_cons_2; [apply gormdb.public_Pagination|].
    apply Forall_cons_2; [apply gormdb.public_OrderBy|].
    apply Forall_cons_2; [apply gormdb.public_Preload|].
    apply Forall_cons_2;
      [by apply (gormdb.public_OmitNotFoundErr (Some bank.to_sentinel))|].
    apply Forall_cons_2; [apply gormdb.public_Pagination|].
    apply Forall_nil_2.
  - split; [exact Hp|]. split; [exact Hs|]. apply Hlist.
Defined.

(** ** [UpdateByFn] *)

(** C3.  [UpdateByFn] fetches the first record [r] matching the predicate
    inside a transaction and hands it to [updateFn].
    - If [updateFn] returns an error, that very error is returned, the
      transaction is rolled back and the stored rows are as before.
    - If [updateFn] returns [(false, nil)], the transaction commits, no
      save statement reaches the store and the stored rows are as before.
    - If [updateFn] returns [(true, nil)], the record as [updateFn] left it
      is saved and the transaction commits (when the store accepts the
      save; when it refuses, the store's error is returned and the rows are
      as before).
    The trace shows a save statement in the last case only. *)
Theorem UpdateByFn_outcomes {T : Type} `{!gorm.Model T} `{!GoZero T}
    (query : gormdb.Query.t) (updateFn : T → T * (bool * option error))
    (db : gorm.DB T) (r : T) (rest : list T)
    (r' : T) (updated : bool) (err : option error) :
  gorm.next_fault db = None →
  gorm.selected (gormdb.scope query) (gorm.rows db) = r :: rest →
  updateFn r = (r', (updated, err)) →
  let after := gormdb.UpdateByFn query updateFn db in
  let fetch := gorm.EvFirst (gormdb.scope query) in
  match err, updated with
  | Some e, _ =>
      after.2 = Some e
      ∧ gorm.rows after.1 = gorm.rows db
      ∧ gorm.trace after.1
        = gorm.trace db ++ [gorm.EvBegin; fetch; gorm.EvRollback]
  | None, false =>
      after.2 = None
      ∧ gorm.rows after.1 = gorm.rows db
      ∧ gorm.trace after.1
        = gorm.trace db ++ [gorm.EvBegin; fetch; gorm.EvCommit]
  | None, true =>
      (gorm.no_fault 2 db →
       after.2 = None
       ∧ gorm.rows after.1 = gorm.upsert r' (gorm.rows db)
       ∧ gorm.trace after.1
         = gorm.trace db
           ++ [gorm.EvBegin; fetch; gorm.EvSave r'; gorm.EvCommit])
      ∧ (∀ e fs,
           gorm.faults db = None :: Some e :: fs →
           after.2 = Some e
           ∧ gorm.rows after.1 = gorm.rows db
           ∧ gorm.trace after.1
             = gorm.trace db
               ++ [gorm.EvBegin; fetch; gorm.EvSave r'; gorm.EvRollback])
  end.
Proof.
  intros Hok Hsel Hfn after fetch. subst after fetch.
  unfold gormdb.UpdateByFn, gorm.Transaction.
  rewrite (First_found _ _ (gorm.mark gorm.EvBegin db) r rest) by done.
  unfold gorm.loaded. cbn [gormdb.scope gorm.Not gorm.Where gorm.Session
    gorm.Preloads fold_left].
  rewrite Hfn.
  destruct err as [e|]; [|destruct updated]; cbn [negb].
  - simpl. by rewrite <- !app_assoc.
  - split.
    + intros Hok2.
      pose proof (no_fault_exec 1 (gorm.EvFirst (gormdb.scope query))
                    (gorm.mark gorm.EvBegin db) Hok2) as Hsave.
      apply no_fault_next in Hsave.
      unfold gorm.Save.
      destruct (gorm.exec (gorm.EvSave r') _) as [tx2 fault] eqn:Hexec.
      assert (fault = None) as ->
        by (unfold gorm.exec in Hexec; simpl in *; congruence).
      unfold gorm.exec in Hexec. injection Hexec as <- _.
      simpl. by rewrite <- !app_assoc.
    + intros e fs Hfaults. unfold gorm.Save, gorm.exec, gorm.next_fault.
      simpl. rewrite Hfaults. simpl. by rewrite <- !app_assoc.
  - simpl. by rewrite <- !app_assoc.
Qed.

(** A read-only check of account 2 leaves the table as it was. *)
Lemma UpdateByFn_outcomes_witness :
  (gormdb.UpdateByFn (gormdb.Q {["id" := AInt 2]}) bank.inspect_only
     bank.store).2 = None
  ∧ gorm.rows (gormdb.UpdateByFn (gormdb.Q {["id" := AInt 2]})
                 bank.inspect_only bank.store).1
    = bank.accounts.
Proof.
  destruct (UpdateByFn_outcomes (gormdb.Q {["id" := AInt 2]})
              bank.inspect_only bank.store bank.ben [] bank.ben false None)
    as (Herr & Hrows & _).
  - reflexivity.
  - by vm_compute.
  - reflexivity.
  - split; [exact Herr|exact Hrows].
Defined.

(** The other two outcomes on the same account: a deposit is saved, a
    rejected update changes nothing and its error comes back untouched. *)
Example UpdateByFn_scenarios :
  gorm.rows (gormdb.UpdateByFn (gormdb.Q {["id" := AInt 2]})
               (bank.deposit 5) bank.store).1
  = [bank.ann; bank.mkAccount 2 "ben" 75 []; bank.cay; bank.dov; bank.eve]
  ∧ gormdb.UpdateByFn (gormdb.Q {["id" := AInt 2]}) bank.reject bank.store
    = (gorm.mkDB bank.accounts []
         [gorm.EvBegin;
          gorm.EvFirst (gormdb.scope (gormdb.Q {["id" := AInt 2]}));
          gorm.EvRollback],
       Some (ErrOther "insufficient funds")).
Proof. split; by vm_compute. Qed.

(* ===================================================================== *)
(** * Part III: further properties of the two packages                    *)
(* ===================================================================== *)

#[local] Set Warnings "-clear-no-such-hyp".

(** ** [PluckFn] with [SelectAll], [Uniq], [Unique], [PluckUniqFn] *)

(** With a selector that includes every record, [PluckFn] is the map of
    the extractor over the list. *)
Theorem PluckFn_SelectAll_map {StructT FieldT : Type} `{!GoZero FieldT}
    (l : list StructT) (f : StructT → FieldT) :
  utils.PluckFn l (utils.SelectAll f) = f <$> l.
Proof.
  apply list_eq. intros i. unfold utils.PluckFn.
  destruct (l !! i) as [item|] eqn:Hi.
  - rewrite list_lookup_fmap, Hi. simpl.
    apply (PluckFn_loop_at (utils.SelectAll f) 0%nat l _ i item zero_value Hi).
    simpl. apply lookup_replicate_2. by eapply lookup_lt_Some.
  - rewrite list_lookup_fmap, Hi. simpl. apply lookup_ge_None.
    rewrite PluckFn_loop_length, length_replicate. by apply lookup_ge_None.
Qed.

Section Uniq_facts.
Import utils.
Context {E : Type} `{Countable E}.
Implicit Types (l : list E) (m : gset E).

Lemma elem_of_Uniq_loop m l x : x ∈ Uniq_loop m l ↔ x ∈ l ∧ x ∉ m.
Proof.
  revert m. induction l as [|y l IH]; intros m; simpl.
  - rewrite !elem_of_nil. tauto.
  - destruct (decide (y ∈ m)) as [Hy|Hy].
    + rewrite IH, elem_of_cons. split; [tauto|].
      intros [[->|?] ?]; tauto.
    + rewrite !elem_of_cons, IH, elem_of_union, elem_of_singleton.
      split.
      * intros [->|[? ?]]; tauto.
      * intros [[->|?] ?]; [tauto|].
        destruct (decide (x = y)); tauto.
Qed.

Lemma NoDup_Uniq_loop m l : NoDup (Uniq_loop m l).
Proof.
  revert m. induction l as [|y l IH]; intros m; simpl; [constructor|].
  destruct (decide (y ∈ m)); [apply IH|].
  constructor; [|apply IH].
  rewrite elem_of_Uniq_loop, elem_of_union, elem_of_singleton. tauto.
Qed.

Lemma sublist_Uniq_loop m l : Uniq_loop m l `sublist_of` l.
Proof.
  revert m. induction l as [|y l IH]; intros m; simpl; [constructor|].
  destruct (decide (y ∈ m)).
  - by apply sublist_cons.
  - by apply sublist_skip.
Qed.

(** Having seen [x] already is the same as meeting a list without [x]. *)
Lemma Uniq_loop_seen m l x :
  Uniq_loop ({[x]} ∪ m) l = Uniq_loop m (filter (λ y, y ≠ x) l).
Proof.
  revert m. induction l as [|y l IH]; intros m; simpl; [done|].
  rewrite filter_cons. destruct (decide (y = x)) as [->|Hne].
  - destruct (decide (x ∈ {[x]} ∪ m)) as [_|Hno]; [|set_solver].
    destruct (decide (x ≠ x)) as [Hc|_]; [done|]. apply IH.
  - destruct (decide (y ≠ x)) as [_|Hc]; [|done]. simpl.
    destruct (decide (y ∈ m)) as [Hy|Hy].
    + destruct (decide (y ∈ {[x]} ∪ m)) as [_|Hno]; [|set_solver].
      apply IH.
    + destruct (decide (y ∈ {[x]} ∪ m)) as [Hc|_]; [set_solver|].
      f_equal. rewrite <- IH. f_equal. set_solver.
Qed.

Lemma Uniq_loop_NoDup m l :
  NoDup l → (∀ x, x ∈ l → x ∉ m) → Uniq_loop m l = l.
Proof.
  intros Hnd. revert m. induction Hnd as [|y l Hy Hnd IH]; intros m Hm; [done|].
  simpl. rewrite decide_False by (apply Hm; by left). f_equal.
  apply IH. intros x Hx. rewrite elem_of_union, elem_of_singleton.
  intros [->|Hxm]; [done|]. apply (Hm x); [by right|done].
Qed.

End Uniq_facts.

(** [Uniq] returns a duplicate-free list with exactly the elements of its
    input, in the order of the input. *)
Theorem Uniq_dedups {E : Type} `{Countable E} (l : list E) :
  NoDup (utils.Uniq l)
  ∧ (∀ x, x ∈ utils.Uniq l ↔ x ∈ l)
  ∧ utils.Uniq l `sublist_of` l.
Proof.
  unfold utils.Uniq. split; [apply NoDup_Uniq_loop|]. split.
  - intros x. rewrite elem_of_Uniq_loop. set_solver.
  - apply sublist_Uniq_loop.
Qed.

(** [Uniq] keeps the first occurrence of every element: the head of the
    input always stays at the head, and its later occurrences are the ones
    dropped. *)
Theorem Uniq_first_occurrence {E : Type} `{Countable E} (x : E) (l : list E) :
  utils.Uniq (x :: l) = x :: utils.Uniq (filter (λ y, y ≠ x) l).
Proof.
  unfold utils.Uniq. simpl. rewrite decide_False by apply not_elem_of_empty.
  f_equal. by rewrite <- Uniq_loop_seen.
Qed.

(** A list without duplicates is returned unchanged by [Uniq]. *)
Theorem Uniq_NoDup_unchanged {E : Type} `{Countable E} (l : list E) :
  NoDup l → utils.Uniq l = l.
Proof.
  intros Hnd. apply Uniq_loop_NoDup; [done|]. set_solver.
Qed.

Lemma Uniq_NoDup_unchanged_witness : utils.Uniq [3; 1; 2] = [3; 1; 2].
Proof.
  apply Uniq_NoDup_unchanged.
  apply (bool_decide_unpack _). by vm_compute.
Defined.

(** [Uniq] is idempotent. *)
Theorem Uniq_idempotent {E : Type} `{Countable E} (l : list E) :
  utils.Uniq (utils.Uniq l) = utils.Uniq l.
Proof.
  apply Uniq_loop_NoDup; [apply NoDup_Uniq_loop|]. set_solver.
Qed.

Section Keys_facts.
Context {K : Type} `{Countable K}.

(** The keys collected from a [map[K]struct{}]. *)
Lemma elem_of_keys (m : gmap K ()) (x : K) :
  x ∈ (map_to_list m).*1 ↔ is_Some (m !! x).
Proof.
  rewrite list_elem_of_fmap. split.
  - intros [[k []] [-> Hin]]. apply elem_of_map_to_list in Hin. by eexists.
  - intros [[] Hx]. exists (x, ()). split; [done|].
    by apply elem_of_map_to_list.
Qed.

(** The loop [for _, item := range items { m[item] = struct{}{} }]. *)
Lemma lookup_fold_insert_unit (items : list K) (m : gmap K ()) (x : K) :
  is_Some (fold_left (λ (m : gmap K ()) item, <[item := ()]> m) items m !! x)
  ↔ x ∈ items ∨ is_Some (m !! x).
Proof.
  revert m. induction items as [|y items IH]; intros m; simpl.
  - rewrite elem_of_nil. tauto.
  - rewrite IH, elem_of_cons, lookup_insert_is_Some.
    destruct (decide (y = x)) as [->|]; naive_solver.
Qed.

End Keys_facts.

Section PluckFn_elements.
Import utils.
Context {StructT FieldT : Type} `{!GoZero FieldT}.

Lemma PluckFn_at (l : list StructT) (fn : SelectFn StructT FieldT)
    (i : nat) (item : StructT) :
  l !! i = Some item →
  PluckFn l fn !! i = Some (if (fn item).2 then (fn item).1 else zero_value).
Proof.
  intros Hi. unfold PluckFn.
  apply (PluckFn_loop_at fn 0%nat l _ i item zero_value Hi).
  simpl. apply lookup_replicate_2. by eapply lookup_lt_Some.
Qed.

Lemma elem_of_PluckFn (l : list StructT) (fn : SelectFn StructT FieldT)
    (x : FieldT) :
  x ∈ PluckFn l fn
  ↔ ∃ item, item ∈ l ∧ x = (if (fn item).2 then (fn item).1 else zero_value).
Proof.
  rewrite list_elem_of_lookup. split.
  - intros [i Hi].
    assert (i < length l)%nat as Hlt.
    { apply lookup_lt_Some in Hi. unfold PluckFn in Hi.
      by rewrite PluckFn_loop_length, length_replicate in Hi. }
    destruct (lookup_lt_is_Some_2 l i Hlt) as [item Hitem].
    rewrite (PluckFn_at l fn i item Hitem) in Hi. injection Hi as <-.
    exists item. split; [|done]. apply list_elem_of_lookup. by exists i.
  - intros (item & [i Hi]%list_elem_of_lookup & ->).
    exists i. by apply PluckFn_at.
Qed.

End PluckFn_elements.

(** [Unique] and [Uniq] agree up to the order of the result: both list
    every element of the input exactly once. *)
Theorem Unique_permutation_of_Uniq {E : Type} `{Countable E} (l : list E) :
  NoDup (utils.Unique l)
  ∧ (∀ x, x ∈ utils.Unique l ↔ x ∈ l)
  ∧ utils.Unique l ≡ₚ utils.Uniq l.
Proof.
  assert (∀ x, x ∈ utils.Unique l ↔ x ∈ l) as Hel.
  { intros x. unfold utils.Unique. cbv zeta.
    rewrite elem_of_keys, lookup_fold_insert_unit, lookup_empty.
    split; [intros [?|[? ?]]; done|by left]. }
  assert (NoDup (utils.Unique l)) as Hnd
    by apply NoDup_fst_map_to_list.
  split; [done|]. split; [done|].
  apply NoDup_Permutation; [done|apply NoDup_Uniq_loop|].
  intros x. rewrite Hel. unfold utils.Uniq. rewrite elem_of_Uniq_loop.
  set_solver.
Qed.

(** [PluckUniqFn] lists, each once, the values selected from the included
    records, and, as soon as one record is excluded, the zero value of the
    field type as well, whether or not any record carries it. *)
Theorem PluckUniqFn_elements {StructT FieldT : Type} `{Countable FieldT}
    `{!GoZero FieldT} (l : list StructT)
    (fn : utils.SelectFn StructT FieldT) :
  NoDup (utils.PluckUniqFn l fn)
  ∧ ∀ x, x ∈ utils.PluckUniqFn l fn
         ↔ (∃ item, item ∈ l ∧ fn item = (x, true))
           ∨ (x = zero_value ∧ ∃ item, item ∈ l ∧ (fn item).2 = false).
Proof.
  unfold utils.PluckUniqFn, utils.Uniq. split; [apply NoDup_Uniq_loop|].
  intros x. rewrite elem_of_Uniq_loop, elem_of_PluckFn. split.
  - intros [(item & Hin & ->) _].
    destruct (fn item) as [field add] eqn:Hfn. destruct add; simpl.
    + left. by exists item.
    + right. split; [done|]. exists item. by rewrite Hfn.
  - intros [(item & Hin & Hfn)|(-> & item & Hin & Hfn)].
    + split; [|apply not_elem_of_empty]. exists item. by rewrite Hfn.
    + split; [|apply not_elem_of_empty]. exists item. by rewrite Hfn.
Qed.

(** The selector of the package's example excludes Bob, so the unique
    names come with an empty string among them. *)
Example PluckUniqFn_scenario :
  utils.PluckUniqFn utils.users utils.older_than_28 = ["Alice"; ""; "Charlie"].
Proof. by vm_compute. Qed.

(** ** The [Set] type *)

(** A set built by [NewSet] contains exactly the items it was given, and
    [ToSlice] lists each of them once: it is [Uniq] of the items up to
    order. *)
Theorem GoSet_NewSet_ToSlice {T : Type} `{Countable T} (items : list T) :
  (∀ x, utils.GoSet.Contain (utils.GoSet.NewSet items) x = true ↔ x ∈ items)
  ∧ NoDup (utils.GoSet.ToSlice (utils.GoSet.NewSet items))
  ∧ utils.GoSet.ToSlice (utils.GoSet.NewSet items) ≡ₚ utils.Uniq items.
Proof.
  assert (∀ x, is_Some (utils.GoSet.NewSet items !! x) ↔ x ∈ items) as Hel.
  { intros x. unfold utils.GoSet.NewSet.
    rewrite lookup_fold_insert_unit, lookup_empty.
    split; [intros [?|[? ?]]; done|by left]. }
  split; [|split].
  - intros x. rewrite <- Hel. unfold utils.GoSet.Contain.
    destruct (_ !! x); split; try done; by intros [? ?].
  - apply NoDup_fst_map_to_list.
  - apply NoDup_Permutation;
      [apply NoDup_fst_map_to_list|apply NoDup_Uniq_loop|].
    intros x. unfold utils.GoSet.ToSlice. rewrite elem_of_keys, Hel.
    unfold utils.Uniq. rewrite elem_of_Uniq_loop. set_solver.
Qed.

(** [Add], [Remove], [Contain] and [ToSlice] behave as set insertion,
    removal, membership and enumeration: adding twice is adding once,
    removing an item that was just added to a set without it gives the set
    back, and [ToSlice] lists the members, each once. *)
Theorem GoSet_laws {T : Type} `{Countable T} (s : gmap T ()) (x : T) :
  (∀ y, utils.GoSet.Contain (utils.GoSet.Add s x) y = true
        ↔ y = x ∨ utils.GoSet.Contain s y = true)
  ∧ (∀ y, utils.GoSet.Contain (utils.GoSet.Remove s x) y = true
          ↔ y ≠ x ∧ utils.GoSet.Contain s y = true)
  ∧ utils.GoSet.Add (utils.GoSet.Add s x) x = utils.GoSet.Add s x
  ∧ (utils.GoSet.Contain s x = false →
     utils.GoSet.Remove (utils.GoSet.Add s x) x = s)
  ∧ (utils.GoSet.Contain s x = true → utils.GoSet.Add s x = s)
  ∧ NoDup (utils.GoSet.ToSlice s)
  ∧ (∀ y, y ∈ utils.GoSet.ToSlice s ↔ utils.GoSet.Contain s y = true).
Proof.
  unfold utils.GoSet.Contain, utils.GoSet.Add, utils.GoSet.Remove,
    utils.GoSet.ToSlice.
  split_and!.
  - intros y. destruct (decide (x = y)) as [->|Hne].
    + rewrite lookup_insert_eq. naive_solver.
    + rewrite lookup_insert_ne by done. naive_solver.
  - intros y. destruct (decide (x = y)) as [->|Hne].
    + rewrite lookup_delete_eq. naive_solver.
    + rewrite lookup_delete_ne by done. naive_solver.
  - apply insert_insert_eq.
  - intros Hx. rewrite delete_insert_eq. apply delete_id.
    by destruct (s !! x).
  - intros Hx. apply insert_id. by destruct (s !! x) as [[]|].
  - apply NoDup_fst_map_to_list.
  - intros y. rewrite elem_of_keys.
    destruct (s !! y); split; try done; by intros [? ?].
Qed.

Lemma GoSet_laws_witness :
  utils.GoSet.Remove (utils.GoSet.Add (utils.GoSet.NewSet [1; 2]) 7) 7
  = utils.GoSet.NewSet [1; 2]
  ∧ utils.GoSet.Add (utils.GoSet.NewSet [1; 2]) 2 = utils.GoSet.NewSet [1; 2].
Proof.
  split.
  - destruct (GoSet_laws (utils.GoSet.NewSet [1; 2]) 7)
      as (_ & _ & _ & Hback & _).
    apply Hback. by vm_compute.
  - destruct (GoSet_laws (utils.GoSet.NewSet [1; 2]) 2)
      as (_ & _ & _ & _ & Hsame & _).
    apply Hsame. by vm_compute.
Defined.

(** ** More on field keying *)

Section Keying_more.
Import utils.
Context {KeyT : Type} `{Countable KeyT} {ValueT StructT : Type}.
Implicit Types (fn keySel : SelectFn StructT KeyT)
  (valueSel : SelectFn StructT ValueT).

(** What a key holds after the loop was written by a record of the list,
    unless the map held it before the loop. *)
Lemma fold_lookup_inv {V : Type} (step : gmap KeyT V → StructT → gmap KeyT V)
    (P : StructT → Prop) (val : StructT → V) (k : KeyT) :
  (∀ m item, P item → step m item !! k = Some (val item)) →
  (∀ m item, ¬ P item → step m item !! k = m !! k) →
  (∀ item, P item ∨ ¬ P item) →
  ∀ (l : list StructT) (m : gmap KeyT V) (v : V),
    fold_left step l m !! k = Some v →
    (∃ item, item ∈ l ∧ P item ∧ v = val item) ∨ m !! k = Some v.
Proof.
  intros Hwrite Hother Hdec.
  induction l as [|x l IH]; intros m v Hv; [by right|].
  simpl in Hv. destruct (IH _ _ Hv) as [(item & Hin & HP & ->)|Hstep].
  - left. exists item. split; [by right|done].
  - destruct (Hdec x) as [HP|HnP].
    + rewrite Hwrite in Hstep by done. injection Hstep as <-.
      left. exists x. split; [by left|done].
    + rewrite Hother in Hstep by done. by right.
Qed.

(** A key some record of the list writes is present after the loop. *)
Lemma fold_lookup_is_Some {V : Type}
    (step : gmap KeyT V → StructT → gmap KeyT V)
    (P : StructT → Prop) (val : StructT → V) (k : KeyT) :
  (∀ m item, P item → step m item !! k = Some (val item)) →
  (∀ m item, ¬ P item → step m item !! k = m !! k) →
  (∀ item, P item ∨ ¬ P item) →
  ∀ (l : list StructT) (m : gmap KeyT V),
    (∃ item, item ∈ l ∧ P item) ∨ is_Some (m !! k) →
    is_Some (fold_left step l m !! k).
Proof.
  intros Hwrite Hother Hdec.
  induction l as [|x l IH]; intros m Hex; simpl.
  - destruct Hex as [(item & Hin & _)|Hm]; [by apply elem_of_nil in Hin|done].
  - apply IH. destruct (Hdec x) as [HP|HnP].
    + right. rewrite Hwrite by done. by eexists.
    + destruct Hex as [(item & Hin & HP)|Hm].
      * apply elem_of_cons in Hin as [->|Hin]; [done|].
        left. by exists item.
      * right. by rewrite Hother.
Qed.

Lemma keys_struct_dec fn (k : KeyT) (item : StructT) :
  keys_struct fn k item ∨ ¬ keys_struct fn k item.
Proof.
  unfold keys_struct. destruct (fn item) as [k' add].
  destruct add; [|right; congruence].
  destruct (decide (k' = k)) as [->|]; [by left|right; congruence].
Qed.

Lemma keys_field_dec keySel valueSel (k : KeyT) (item : StructT) :
  keys_field keySel valueSel k item ∨ ¬ keys_field keySel valueSel k item.
Proof.
  unfold keys_field. destruct (keys_struct_dec keySel k item) as [Hk|Hk];
    [|right; intros [? ?]; by apply Hk].
  destruct ((valueSel item).2); [by left|right; by intros [_ ?]].
Qed.

Lemma fold_step_size {V : Type} (step : gmap KeyT V → StructT → gmap KeyT V) :
  (∀ m item, size (step m item) ≤ S (size m))%nat →
  ∀ (l : list StructT) (m : gmap KeyT V),
    (size (fold_left step l m) ≤ length l + size m)%nat.
Proof.
  intros Hstep. induction l as [|x l IH]; intros m; simpl; [lia|].
  specialize (IH (step m x)). specialize (Hstep m x). lia.
Qed.

Lemma size_insert_le {V : Type} (m : gmap KeyT V) (k : KeyT) (v : V) :
  (size (<[k := v]> m) ≤ S (size m))%nat.
Proof.
  destruct (m !! k) as [w|] eqn:Hk.
  - rewrite map_size_insert_Some by done. lia.
  - rewrite map_size_insert_None by done. lia.
Qed.

Lemma FieldMapStructFn_size_le (l : list StructT) fn :
  (size (FieldMapStructFn l fn) ≤ length l)%nat.
Proof.
  unfold FieldMapStructFn.
  assert (∀ (m : gmap KeyT StructT) item,
            (size (FieldMapStructFn_step fn m item) ≤ S (size m))%nat)
    as Hstep.
  { intros m item. unfold FieldMapStructFn_step.
    destruct (fn item) as [field add]. destruct add; simpl; [|lia].
    apply size_insert_le. }
  pose proof (fold_step_size _ Hstep l ∅) as Hsize.
  rewrite map_size_empty in Hsize. lia.
Qed.

End Keying_more.

(** Every entry of the map built by [FieldMapStructFn] is a record of the
    input filed under the key the selector gives it; a key is absent
    exactly when no record of the input produces it; and the map has at
    most as many entries as the input has records. *)
Theorem FieldMapStructFn_entries {KeyT : Type} `{Countable KeyT}
    {StructT : Type} (l : list StructT)
    (fn : utils.SelectFn StructT KeyT) :
  (∀ k v, utils.FieldMapStructFn l fn !! k = Some v →
          v ∈ l ∧ fn v = (k, true))
  ∧ (∀ k, utils.FieldMapStructFn l fn !! k = None
          ↔ ∀ item, item ∈ l → fn item ≠ (k, true))
  ∧ (size (utils.FieldMapStructFn l fn) ≤ length l)%nat.
Proof.
  unfold utils.FieldMapStructFn. split_and!.
  - intros k v Hv.
    destruct (fold_lookup_inv _ (utils.keys_struct fn k) (λ item, item) k
                (λ m item, FieldMapStructFn_step_writes fn m item k)
                (λ m item, FieldMapStructFn_step_other fn m item k)
                (keys_struct_dec fn k) l ∅ v Hv)
      as [(item & Hin & HP & ->)|Hempty]; [done|].
    by rewrite lookup_empty in Hempty.
  - intros k. rewrite eq_None_not_Some. split.
    + intros Hnone item Hin Hfn. apply Hnone.
      apply (fold_lookup_is_Some _ (utils.keys_struct fn k) (λ item, item) k
               (λ m item, FieldMapStructFn_step_writes fn m item k)
               (λ m item, FieldMapStructFn_step_other fn m item k)
               (keys_struct_dec fn k)).
      left. by exists item.
    + intros Hno [v Hv].
      destruct (fold_lookup_inv _ (utils.keys_struct fn k) (λ item, item) k
                  (λ m item, FieldMapStructFn_step_writes fn m item k)
                  (λ m item, FieldMapStructFn_step_other fn m item k)
                  (keys_struct_dec fn k) l ∅ v Hv)
        as [(item & Hin & HP & ->)|Hempty].
      * by apply (Hno item).
      * by rewrite lookup_empty in Hempty.
  - apply FieldMapStructFn_size_le.
Qed.

(** When the extracted keys are pairwise distinct, every record of the
    input is found under its own key, and the map has as many entries as
    the input has records. *)
Theorem FieldMapStructFn_distinct_keys {KeyT : Type} `{Countable KeyT}
    {StructT : Type} (l : list StructT) (f : StructT → KeyT) :
  NoDup (f <$> l) →
  (∀ item, item ∈ l →
           utils.FieldMapStructFn l (utils.SelectAll f) !! f item = Some item)
  ∧ size (utils.FieldMapStructFn l (utils.SelectAll f)) = length l.
Proof.
  intros Hnd.
  assert (∀ item, item ∈ l →
            utils.FieldMapStructFn l (utils.SelectAll f) !! f item
            = Some item) as Hfound.
  { intros item [j Hj]%list_elem_of_lookup. unfold utils.FieldMapStructFn.
    apply (fold_last_write _ (utils.keys_struct (utils.SelectAll f) (f item))
             (λ item, item) (f item)
             (λ m x, FieldMapStructFn_step_writes _ m x (f item))
             (λ m x, FieldMapStructFn_step_other _ m x (f item))
             l ∅ j item Hj); [done|].
    intros j' item' Hlt Hj' Hkey. unfold utils.keys_struct, utils.SelectAll in Hkey.
    injection Hkey as Hkey.
    assert (j = j'); [|lia].
    apply (NoDup_lookup (f <$> l) j j' (f item)); [done| |].
    - by rewrite list_lookup_fmap, Hj.
    - by rewrite list_lookup_fmap, Hj', <- Hkey. }
  split; [done|].
  apply Nat.le_antisymm.
  - apply FieldMapStructFn_size_le.
  - rewrite <- (length_fmap f l).
    rewrite <- (size_list_to_set (C := gset KeyT) (f <$> l)) by done.
    rewrite <- size_dom. apply subseteq_size.
    intros k [item [-> Hin]]%elem_of_list_to_set%list_elem_of_fmap.
    apply elem_of_dom. rewrite Hfound by done. by eexists.
Qed.

(** The three users of the examples have distinct IDs. *)
Lemma FieldMapStructFn_distinct_keys_witness :
  utils.FieldMapStructFn utils.users (utils.SelectAll utils.ID) !! 2
  = Some utils.bob
  ∧ size (utils.FieldMapStructFn utils.users (utils.SelectAll utils.ID))
    = 3%nat.
Proof.
  destruct (FieldMapStructFn_distinct_keys utils.users utils.ID)
    as [Hfound Hsize].
  - apply (bool_decide_unpack _). by vm_compute.
  - split; [|exact Hsize].
    apply (Hfound utils.bob). unfold utils.users.
    apply list_elem_of_further, list_elem_of_here.
Defined.

Section FieldMapFieldFn_facts.
Import utils.
Context {KeyT : Type} `{Countable KeyT} {ValueT StructT : Type}.

Lemma FieldMapFieldFn_fold_fmap (keySel : SelectFn StructT KeyT)
    (f : StructT → ValueT) (l : list StructT) (m : gmap KeyT StructT) :
  fold_left (FieldMapFieldFn_step keySel (SelectAll f)) l (f <$> m)
  = f <$> fold_left (FieldMapStructFn_step keySel) l m.
Proof.
  revert m. induction l as [|x l IH]; intros m; simpl; [done|].
  rewrite <- IH. f_equal.
  unfold FieldMapFieldFn_step, FieldMapStructFn_step, SelectAll.
  destruct (keySel x) as [key addKey]. destruct addKey; simpl; [|done].
  by rewrite fmap_insert.
Qed.

End FieldMapFieldFn_facts.

(** With a value selector that includes every record, [FieldMapFieldFn] is
    [FieldMapStructFn] followed by the extraction of the value from each
    record kept. *)
Theorem FieldMapFieldFn_SelectAll {KeyT : Type} `{Countable KeyT}
    {ValueT StructT : Type} (l : list StructT)
    (keySel : utils.SelectFn StructT KeyT) (f : StructT → ValueT) :
  utils.FieldMapFieldFn l keySel (utils.SelectAll f)
  = f <$> utils.FieldMapStructFn l keySel.
Proof.
  unfold utils.FieldMapFieldFn, utils.FieldMapStructFn.
  rewrite <- FieldMapFieldFn_fold_fmap. by rewrite fmap_empty.
Qed.

(** Every entry of the map built by [FieldMapFieldFn] comes from a record
    that both selectors include; a key is absent exactly when no record
    produces it under both selectors, so that a record the value selector
    excludes adds nothing, even when the key selector includes it. *)
Theorem FieldMapFieldFn_entries {KeyT : Type} `{Countable KeyT}
    {ValueT StructT : Type} (l : list StructT)
    (keySel : utils.SelectFn StructT KeyT)
    (valueSel : utils.SelectFn StructT ValueT) :
  (∀ k v, utils.FieldMapFieldFn l keySel valueSel !! k = Some v →
          ∃ item, item ∈ l ∧ keySel item = (k, true)
                  ∧ valueSel item = (v, true))
  ∧ (∀ k, utils.FieldMapFieldFn l keySel valueSel !! k = None
          ↔ ∀ item, item ∈ l → keySel item = (k, true) →
                    (valueSel item).2 = false).
Proof.
  unfold utils.FieldMapFieldFn. split.
  - intros k v Hv.
    destruct (fold_lookup_inv _ (utils.keys_field keySel valueSel k)
                (λ item, (valueSel item).1) k
                (λ m item, FieldMapFieldFn_step_writes keySel valueSel m item k)
                (λ m item, FieldMapFieldFn_step_other keySel valueSel m item k)
                (keys_field_dec keySel valueSel k) l ∅ v Hv)
      as [(item & Hin & [Hk Hval] & ->)|Hempty].
    + exists item. split; [done|]. split; [done|].
      destruct (valueSel item) as [value add]. simpl in *. by subst.
    + by rewrite lookup_empty in Hempty.
  - intros k. rewrite eq_None_not_Some. split.
    + intros Hnone item Hin Hk.
      destruct ((valueSel item).2) eqn:Hval; [|done].
      exfalso. apply Hnone.
      apply (fold_lookup_is_Some _ (utils.keys_field keySel valueSel k)
               (λ item, (valueSel item).1) k
               (λ m item, FieldMapFieldFn_step_writes keySel valueSel m item k)
               (λ m item, FieldMapFieldFn_step_other keySel valueSel m item k)
               (keys_field_dec keySel valueSel k)).
      left. by exists item.
    + intros Hno [v Hv].
      destruct (fold_lookup_inv _ (utils.keys_field keySel valueSel k)
                  (λ item, (valueSel item).1) k
                  (λ m item,
                     FieldMapFieldFn_step_writes keySel valueSel m item k)
                  (λ m item,
                     FieldMapFieldFn_step_other keySel valueSel m item k)
                  (keys_field_dec keySel valueSel k) l ∅ v Hv)
        as [(item & Hin & [Hk Hval] & ->)|Hempty].
      * rewrite (Hno item Hin Hk) in Hval. discriminate.
      * by rewrite lookup_empty in Hempty.
Qed.

(** ** More on set reconciliation *)

Section SetCmp_facts.
Import utils.
Context {E : Type} `{Countable E}.

Lemma list_to_set_Uniq (l : list E) :
  list_to_set (Uniq l) = (list_to_set l : gset E).
Proof.
  apply set_eq. intros x. rewrite !elem_of_list_to_set.
  unfold Uniq. rewrite elem_of_Uniq_loop. set_solver.
Qed.

(** [ToSlice] of a set and [Uniq] of a list with the same elements. *)
Lemma elements_list_to_set_Uniq (l : list E) :
  elements (list_to_set l : gset E) ≡ₚ Uniq l.
Proof.
  apply NoDup_Permutation; [apply NoDup_elements|apply NoDup_Uniq_loop|].
  intros x. rewrite elem_of_elements, elem_of_list_to_set.
  unfold Uniq. rewrite elem_of_Uniq_loop. set_solver.
Qed.

End SetCmp_facts.

(** Reconciling in the other direction swaps the additions and the
    removals and keeps the overlap, each up to the order of the slice. *)
Theorem SetCmp_swap {E : Type} `{Countable E} (current target : list E) :
  let '(added, overlapped, deleted) := utils.SetCmp current target in
  let '(added', overlapped', deleted') := utils.SetCmp target current in
  added' ≡ₚ deleted ∧ overlapped' ≡ₚ overlapped ∧ deleted' ≡ₚ added.
Proof.
  unfold utils.SetCmp. cbv zeta.
  split; [done|]. split; [|done].
  by rewrite (comm_L (∩) (utils.NewSet target)).
Qed.

(** Applying the result to [current] (dropping what is to be deleted,
    appending what is to be added) yields the elements of [target]. *)
Theorem SetCmp_applied {E : Type} `{Countable E} (current target : list E) :
  let '(added, overlapped, deleted) := utils.SetCmp current target in
  ∀ x, x ∈ filter (λ y, y ∉ deleted) current ++ added ↔ x ∈ target.
Proof.
  unfold utils.SetCmp, utils.NewSet. cbv zeta. intros x.
  rewrite elem_of_app, list_elem_of_filter, !elem_of_elements,
    !elem_of_difference, !elem_of_list_to_set.
  destruct (decide (x ∈ current)), (decide (x ∈ target)); tauto.
Qed.

(** Neither the order of the inputs' elements nor their repetitions matter
    to [SetCmp]: inputs with the same elements give the same additions,
    overlap and removals, each up to the order of the slice. *)
Theorem SetCmp_order_and_repetition {E : Type} `{Countable E}
    (current current' target target' : list E) :
  (∀ x, x ∈ current ↔ x ∈ current') →
  (∀ x, x ∈ target ↔ x ∈ target') →
  let '(added, overlapped, deleted) := utils.SetCmp current target in
  let '(added', overlapped', deleted') := utils.SetCmp current' target' in
  added ≡ₚ added' ∧ overlapped ≡ₚ overlapped' ∧ deleted ≡ₚ deleted'.
Proof.
  intros Hc Ht. unfold utils.SetCmp, utils.NewSet. cbv zeta.
  assert (list_to_set current = (list_to_set current' : gset E)) as ->.
  { apply set_eq. intros x. by rewrite !elem_of_list_to_set. }
  assert (list_to_set target = (list_to_set target' : gset E)) as ->.
  { apply set_eq. intros x. by rewrite !elem_of_list_to_set. }
  done.
Qed.

Lemma SetCmp_order_and_repetition_witness :
  (utils.SetCmp [1; 2; 2; 3] [4; 3; 3]).1.1
  ≡ₚ (utils.SetCmp [3; 2; 1] [3; 4]).1.1
  ∧ (utils.SetCmp [1; 2; 2; 3] [4; 3; 3]).1.2
    ≡ₚ (utils.SetCmp [3; 2; 1] [3; 4]).1.2
  ∧ (utils.SetCmp [1; 2; 2; 3] [4; 3; 3]).2
    ≡ₚ (utils.SetCmp [3; 2; 1] [3; 4]).2.
Proof.
  pose proof (SetCmp_order_and_repetition [1; 2; 2; 3] [3; 2; 1]
                [4; 3; 3] [3; 4]) as Hsame.
  destruct (utils.SetCmp [1; 2; 2; 3] [4; 3; 3])
    as [[added overlapped] deleted].
  destruct (utils.SetCmp [3; 2; 1] [3; 4])
    as [[added' overlapped'] deleted'].
  apply Hsame; intros x.
  - rewrite !elem_of_cons, !elem_of_nil. tauto.
  - rewrite !elem_of_cons, !elem_of_nil. tauto.
Defined.

(** Edge cases of [SetCmp]: equal inputs give no additions and no removals;
    an empty [current] makes every distinct element of [target] an
    addition; an empty [target] makes every distinct element of [current]
    a removal. *)
Theorem SetCmp_edge_cases {E : Type} `{Countable E} (l : list E) :
  (∃ overlapped, utils.SetCmp l l = ([], overlapped, [])
                 ∧ overlapped ≡ₚ utils.Uniq l)
  ∧ (∃ added, utils.SetCmp [] l = (added, [], []) ∧ added ≡ₚ utils.Uniq l)
  ∧ (∃ deleted, utils.SetCmp l [] = ([], [], deleted)
                ∧ deleted ≡ₚ utils.Uniq l).
Proof.
  unfold utils.SetCmp, utils.NewSet. cbv zeta. simpl.
  set (L := list_to_set l : gset E).
  assert (L ∖ L = ∅) as -> by set_solver.
  assert (L ∩ L = L) as -> by set_solver.
  assert (L ∖ ∅ = L) as -> by set_solver.
  assert (∅ ∖ L = ∅) as -> by set_solver.
  assert (∅ ∩ L = ∅) as -> by set_solver.
  assert (L ∩ ∅ = ∅) as -> by set_solver.
  rewrite elements_empty.
  split_and!; eexists; (split; [reflexivity|]);
    apply elements_list_to_set_Uniq.
Qed.

(** [SetCompare] is [SetCmp] under its older name. *)
Lemma SetCompare_is_SetCmp {E : Type} `{Countable E} (current target : list E) :
  utils.SetCompare current target = utils.SetCmp current target.
Proof. reflexivity. Qed.

(** ** More on query options *)



(** Options that set different fields can be given in either order. *)
Theorem options_commute (clauses relations : list string)
    (pageNumber pageSize : Z) (errFn : error → option error)
    (suppress : gormdb.QueryOptFn) (c : gormdb.QueryOpt.t) :
  gormdb.OmitNotFoundErr (Some errFn) = Done suppress →
  gormdb.OrderBy clauses (gormdb.Preload relations c)
  = gormdb.Preload relations (gormdb.OrderBy clauses c)
  ∧ gormdb.OrderBy clauses (gormdb.Pagination pageNumber pageSize c)
    = gormdb.Pagination pageNumber pageSize (gormdb.OrderBy clauses c)
  ∧ gormdb.Preload relations (gormdb.Pagination pageNumber pageSize c)
    = gormdb.Pagination pageNumber pageSize (gormdb.Preload relations c)
  ∧ suppress (gormdb.OrderBy clauses c)
    = gormdb.OrderBy clauses (suppress c)
  ∧ suppress (gormdb.Preload relations c)
    = gormdb.Preload relations (suppress c)
  ∧ suppress (gormdb.Pagination pageNumber pageSize c)
    = gormdb.Pagination pageNumber pageSize (suppress c).
Proof.
  intros Hmk. injection Hmk as <-.
  unfold gormdb.Pagination.
  destruct (decide (pageNumber > 0)), (decide (pageSize > 0));
    repeat split.
Qed.

Lemma options_commute_witness :
  bank.suppressing (gormdb.Pagination 2 2 gormdb.NewQueryOpt)
  = gormdb.Pagination 2 2 (bank.suppressing gormdb.NewQueryOpt).
Proof.
  destruct (options_commute [] [] 2 2 bank.to_sentinel bank.suppressing
              gormdb.NewQueryOpt eq_refl) as (_ & _ & _ & _ & _ & Hcomm).
  exact Hcomm.
Defined.

Section Suppression_facts.
Import gormdb.

Lemma public_opt_suppression_wellformed (fn : QueryOptFn) (c : QueryOpt.t) :
  public_opt fn → suppression_wellformed c → suppression_wellformed (fn c).
Proof.
  unfold suppression_wellformed.
  intros Hfn Hc. destruct Hfn as [p s| | |errFn fn Hmk]; simpl; try done.
  - unfold Pagination.
    destruct (decide (p > 0)), (decide (s > 0)); simpl; done.
  - destruct errFn as [f|]; [|discriminate].
    injection Hmk as <-. simpl. by eexists.
Qed.

Lemma BuildOpt_suppression_wellformed (opts : list QueryOptFn) :
  Forall public_opt opts → suppression_wellformed (BuildOpt opts).
Proof.
  intros Hopts. unfold BuildOpt.
  assert (suppression_wellformed NewQueryOpt) as Hinit by (intros ?; done).
  revert Hinit. generalize NewQueryOpt.
  induction Hopts as [|fn rest Hfn _ IH]; intros c Hc; [done|].
  simpl. apply IH. by apply public_opt_suppression_wellformed.
Qed.

End Suppression_facts.

(** ** More on [Get], [Delete] and [UpdateByFn] *)

(** Options built by the exported constructors never switch suppression on
    without a mapping function, so with them [Get] and [Delete] return and
    do not panic, whatever the store answers. *)
Theorem Get_Delete_never_panic {T : Type} `{!gorm.Model T} `{!GoZero T}
    (opts : list gormdb.QueryOptFn) :
  Forall gormdb.public_opt opts →
  (gormdb.QueryOpt.OmitNotFoundErr (gormdb.BuildOpt opts) = true →
   is_Some (gormdb.QueryOpt.OmitNotFoundErrFn (gormdb.BuildOpt opts)))
  ∧ ∀ (query : gormdb.Query.t) (db : gorm.DB T),
      (∃ r, gormdb.Get query opts db = Done r)
      ∧ (∃ r, gormdb.Delete query opts db = Done r).
Proof.
  intros Hopts.
  pose proof (BuildOpt_suppression_wellformed opts Hopts) as Hwf.
  split; [exact Hwf|]. intros query db. split.
  - unfold gormdb.Get.
    destruct (gorm.First _ _ db) as [db' [result [e|]]]; [|by eexists].
    destruct (gormdb.QueryOpt.OmitNotFoundErr _) eqn:Hon; [|by eexists].
    destruct (Hwf Hon) as [f Hf].
    unfold gormdb.call_OmitNotFoundErrFn. rewrite Hf. by eexists.
  - unfold gormdb.Delete.
    destruct (gorm.Delete _ db) as [db' [e|]]; [|by eexists].
    destruct (gormdb.QueryOpt.OmitNotFoundErr _) eqn:Hon; [|by eexists].
    destruct (Hwf Hon) as [f Hf].
    unfold gormdb.call_OmitNotFoundErrFn. rewrite Hf. by eexists.
Qed.

Lemma Get_Delete_never_panic_witness :
  (∃ r, gormdb.Get (gormdb.Q {["id" := AInt 99]}) bank.assorted bank.store
        = Done r)
  ∧ (∃ r, gormdb.Delete (gormdb.Q {["id" := AInt 2]}) bank.assorted
            bank.unreachable = Done r).
Proof.
  destruct (Get_Delete_never_panic (T := bank.Account) bank.assorted)
    as [_ Hdone].
  - unfold bank.assorted.
    apply Forall_cons_2; [apply gormdb.public_Pagination|].
    apply Forall_cons_2; [apply gormdb.public_OrderBy|].
    apply Forall_cons_2; [apply gormdb.public_Preload|].
    apply Forall_cons_2;
      [by apply (gormdb.public_OmitNotFoundErr (Some bank.to_sentinel))|].
    apply Forall_cons_2; [apply gormdb.public_Pagination|].
    apply Forall_nil_2.
  - split.
    + apply (Hdone (gormdb.Q {["id" := AInt 99]}) bank.store).
    + apply (Hdone (gormdb.Q {["id" := AInt 2]}) bank.unreachable).
Defined.

(** A hand-written option that switches the flag on and supplies no
    function: [Get] panics as soon as the store reports an error. *)
Example Get_panics_on_nil_mapping :
  gormdb.Get (gormdb.Q {["id" := AInt 99]})
    [gormdb.QueryOpt.set_OmitNotFoundErr true] bank.store
  = Panicked "invalid memory address or nil pointer dereference".
Proof. by vm_compute. Qed.

(** [Get] and [List] only read: whatever they return, the rows of the
    store are as before.  [Get] sends exactly one statement, a fetch of the
    first row carrying no order clause.  [List] without pagination sends
    exactly one fetch; with pagination it sends a count and then a fetch
    when the count succeeds, and the count alone, returning the count's
    error and no result, when the count fails. *)
Theorem Get_List_read_only {T : Type} `{!gorm.Model T} `{!GoZero T}
    (query : gormdb.Query.t) (opts : list gormdb.QueryOptFn)
    (db : gorm.DB T) :
  match gormdb.Get query opts db with
  | Done (db', _) =>
      gorm.rows db' = gorm.rows db
      ∧ ∃ st, gorm.trace db' = gorm.trace db ++ [gorm.EvFirst st]
              ∧ gorm.Orders st = []
  | Panicked _ => True
  end
  ∧ match gormdb.List query opts db with
    | Done (db', (res, err)) =>
        gorm.rows db' = gorm.rows db
        ∧ ∃ stc stf,
            if gormdb.QueryOpt.Paginate (gormdb.BuildOpt opts) then
              match gorm.next_fault db with
              | Some e =>
                  gorm.trace db' = gorm.trace db ++ [gorm.EvCount stc]
                  ∧ res = None ∧ err = Some e
              | None =>
                  gorm.trace db'
                  = gorm.trace db ++ [gorm.EvCount stc; gorm.EvFind stf]
              end
            else gorm.trace db' = gorm.trace db ++ [gorm.EvFind stf]
    | Panicked _ => True
    end.
Proof.
  split.
  - unfold gormdb.Get.
    pose proof (Get_statement query opts) as (_ & _ & Horders & _).
    cbv zeta in Horders.
    set (st := fold_left gorm.Preload _ _) in *.
    unfold gorm.First, gorm.exec.
    destruct (gorm.next_fault db) as [e|].
    + destruct (gormdb.QueryOpt.OmitNotFoundErr _).
      * unfold gormdb.call_OmitNotFoundErrFn.
        destruct (gormdb.QueryOpt.OmitNotFoundErrFn _); simpl; eauto.
      * simpl. eauto.
    + destruct (gorm.selected st (gorm.rows db)).
      * destruct (gormdb.QueryOpt.OmitNotFoundErr _).
        -- unfold gormdb.call_OmitNotFoundErrFn.
           destruct (gormdb.QueryOpt.OmitNotFoundErrFn _); simpl; eauto.
        -- simpl. eauto.
      * simpl. eauto.
  - unfold gormdb.List.
    destruct (gormdb.QueryOpt.Paginate _).
    + unfold gorm.Count, gorm.exec at 1.
      destruct (gorm.next_fault db) as [e|].
      * simpl. split; [done|]. by eexists _, gorm.Session.
      * unfold gorm.Find, gorm.exec. simpl.
        destruct (gorm.next_fault _) as [e|].
        -- simpl. split; [done|]. eexists _, _.
           by rewrite <- app_assoc.
        -- destruct (GoInt.quo _ _); [|done]. destruct (GoInt.rem _ _); [|done].
           simpl. split; [done|]. eexists _, _.
           by rewrite <- app_assoc.
    + unfold gorm.Find, gorm.exec.
      destruct (gorm.next_fault db) as [e|].
      * simpl. split; [done|]. by eexists gorm.Session, _.
      * destruct (GoInt.quo _ _); [|done]. destruct (GoInt.rem _ _); [|done].
        simpl. split; [done|]. by eexists gorm.Session, _.
Qed.

(** When no record matches, [UpdateByFn] returns the store's
    "record not found" and rolls back without consulting [updateFn]: the
    outcome is the same for every [updateFn].  The same holds, with the
    store's error, when the fetch fails. *)
Theorem UpdateByFn_nothing_to_update {T : Type} `{!gorm.Model T}
    `{!GoZero T} (query : gormdb.Query.t)
    (updateFn : T → T * (bool * option error)) (db : gorm.DB T) :
  (gorm.next_fault db = None →
   gorm.selected (gormdb.scope query) (gorm.rows db) = [] →
   gormdb.UpdateByFn query updateFn db
   = (gorm.mkDB (gorm.rows db) (tail (gorm.faults db))
        (gorm.trace db
         ++ [gorm.EvBegin; gorm.EvFirst (gormdb.scope query);
             gorm.EvRollback]),
      Some ErrRecordNotFound))
  ∧ (∀ e, gorm.next_fault db = Some e →
          gormdb.UpdateByFn query updateFn db
          = (gorm.mkDB (gorm.rows db) (tail (gorm.faults db))
               (gorm.trace db
                ++ [gorm.EvBegin; gorm.EvFirst (gormdb.scope query);
                    gorm.EvRollback]),
             Some e)).
Proof.
  split.
  - intros Hok Hnone. unfold gormdb.UpdateByFn, gorm.Transaction.
    rewrite (First_not_found _ _ (gorm.mark gorm.EvBegin db)) by done.
    simpl. by rewrite <- !app_assoc.
  - intros e He. unfold gormdb.UpdateByFn, gorm.Transaction.
    rewrite (First_fault _ _ (gorm.mark gorm.EvBegin db) e) by done.
    simpl. by rewrite <- !app_assoc.
Qed.

(** No account has id 99: a deposit to it fails with "record not found". *)
Lemma UpdateByFn_nothing_to_update_witness :
  (gormdb.UpdateByFn (gormdb.Q {["id" := AInt 99]}) (bank.deposit 5)
     bank.store).2 = Some ErrRecordNotFound
  ∧ (gormdb.UpdateByFn (gormdb.Q {["id" := AInt 2]}) (bank.deposit 5)
       bank.unreachable).2 = Some (ErrOther "connection refused").
Proof.
  split.
  - destruct (UpdateByFn_nothing_to_update (gormdb.Q {["id" := AInt 99]})
                (bank.deposit 5) bank.store) as [Hnone _].
    rewrite Hnone; [reflexivity|reflexivity|by vm_compute].
  - destruct (UpdateByFn_nothing_to_update (gormdb.Q {["id" := AInt 2]})
                (bank.deposit 5) bank.unreachable) as [_ Hfault].
    rewrite (Hfault (ErrOther "connection refused")); reflexivity.
Defined.

(** ** More on the store: sorting and saving *)

Section Store_more.
Import gorm.
Context {T : Type} `{!Model T}.
Implicit Types (st : Statement) (db : DB T) (r : T) (rs : list T).

Lemma insert_sorted_perm (clauses : list string) r rs :
  insert_sorted clauses r rs ≡ₚ r :: rs.
Proof.
  induction rs as [|x rs IH]; simpl; [done|].
  destruct (sorts_before clauses x r); [|done].
  rewrite IH. apply Permutation_swap.
Qed.

Lemma sort_rows_perm (clauses : list string) rs : sort_rows clauses rs ≡ₚ rs.
Proof.
  unfold sort_rows. rewrite <- (reverse_Permutation rs) at 2.
  induction (reverse rs) as [|x l IH]; simpl; [done|].
  by rewrite insert_sorted_perm, IH.
Qed.

Lemma length_selected st rs :
  length (selected st rs) = length (filter (λ r, matches st r = true) rs).
Proof. unfold selected. by rewrite sort_rows_perm. Qed.

Lemma selected_nil st rs :
  filter (λ r, matches st r = true) rs = [] → selected st rs = [].
Proof. unfold selected. by intros ->. Qed.

(** Nothing that was kept for not matching matches. *)
Lemma filter_matches_rejected st rs :
  filter (λ r, matches st r = true) (filter (λ r, matches st r = false) rs)
  = [].
Proof.
  induction rs as [|x rs IH]; [done|].
  rewrite (filter_cons (λ r, matches st r = false)).
  destruct (decide (matches st x = false)) as [Hx|Hx]; [|done].
  rewrite filter_cons. by rewrite decide_False by congruence.
Qed.

(** Saving a record whose primary key identifies one stored row replaces
    that row where it stands. *)
Lemma upsert_in_place r r' rs (i : nat) :
  NoDup (primary_key <$> rs) →
  rs !! i = Some r →
  primary_key r' = primary_key r →
  upsert r' rs = <[i := r']> rs.
Proof.
  intros Hnd Hi Hpk. unfold upsert.
  assert (existsb (λ x, bool_decide (primary_key x = primary_key r')) rs
          = true) as ->.
  { apply existsb_exists. exists r. split.
    - apply list_elem_of_In, list_elem_of_lookup. by exists i.
    - apply bool_decide_eq_true. congruence. }
  apply list_eq. intros j. rewrite list_lookup_fmap.
  destruct (decide (i = j)) as [<-|Hne].
  - rewrite Hi. simpl. rewrite decide_True by congruence.
    symmetry. apply list_lookup_insert_eq. by eapply lookup_lt_Some.
  - rewrite list_lookup_insert_ne by done.
    destruct (rs !! j) as [x|] eqn:Hj; [|done]. simpl.
    rewrite decide_False; [done|]. intros Hx. apply Hne.
    apply (NoDup_lookup (primary_key <$> rs) i j (primary_key r)); [done|..].
    + by rewrite list_lookup_fmap, Hi.
    + rewrite list_lookup_fmap, Hj. simpl. congruence.
Qed.

End Store_more.

(** A successful [UpdateByFn] whose [updateFn] keeps the primary key writes
    the record back where the fetched one stood and leaves every other row
    as it was (primary keys being unique in the table). *)
Theorem UpdateByFn_writes_in_place {T : Type} `{!gorm.Model T} `{!GoZero T}
    (query : gormdb.Query.t) (updateFn : T → T * (bool * option error))
    (db : gorm.DB T) (r r' : T) (rest : list T) (i : nat) :
  gorm.no_fault 2 db →
  gorm.selected (gormdb.scope query) (gorm.rows db) = r :: rest →
  updateFn r = (r', (true, None)) →
  gorm.primary_key r' = gorm.primary_key r →
  NoDup (gorm.primary_key <$> gorm.rows db) →
  gorm.rows db !! i = Some r →
  (gormdb.UpdateByFn query updateFn db).2 = None
  ∧ gorm.rows (gormdb.UpdateByFn query updateFn db).1
    = <[i := r']> (gorm.rows db).
Proof.
  intros Hok Hsel Hfn Hpk Hnd Hi.
  assert (gorm.next_fault db = None) as Hok1 by (by eapply no_fault_next).
  pose proof (no_fault_exec 1 (gorm.EvFirst (gormdb.scope query))
                (gorm.mark gorm.EvBegin db) Hok) as Hsave.
  apply no_fault_next in Hsave.
  unfold gormdb.UpdateByFn, gorm.Transaction.
  rewrite (First_found _ _ (gorm.mark gorm.EvBegin db) r rest) by done.
  unfold gorm.loaded. cbn [gormdb.scope gorm.Not gorm.Where gorm.Session
    gorm.Preloads fold_left].
  rewrite Hfn. cbn [negb]. unfold gorm.Save.
  destruct (gorm.exec (gorm.EvSave r') _) as [tx2 fault] eqn:Hexec.
  assert (fault = None) as ->
    by (unfold gorm.exec in Hexec; simpl in *; congruence).
  unfold gorm.exec in Hexec. injection Hexec as <- _. simpl.
  split; [done|]. by apply (upsert_in_place r).
Qed.

(** Five added to ben's balance: his row, the second, is the one replaced. *)
Lemma UpdateByFn_writes_in_place_witness :
  gorm.rows (gormdb.UpdateByFn (gormdb.Q {["id" := AInt 2]})
               (bank.deposit 5) bank.store).1
  = <[1%nat := bank.mkAccount 2 "ben" 75 []]> bank.accounts.
Proof.
  destruct (UpdateByFn_writes_in_place (gormdb.Q {["id" := AInt 2]})
              (bank.deposit 5) bank.store bank.ben
              (bank.mkAccount 2 "ben" 75 []) [] 1)
    as [_ Hrows].
  - constructor.
  - by vm_compute.
  - reflexivity.
  - reflexivity.
  - apply (bool_decide_unpack _). by vm_compute.
  - reflexivity.
  - exact Hrows.
Defined.

(** ** More on [Delete] *)

(** A [Delete] with at least one condition that the store accepts removes
    exactly the rows matching the predicate, keeps the others in their
    order, and returns nil; afterwards the predicate selects nothing.  A
    [Delete] without any condition is refused by the store and removes
    nothing, and without suppression [Delete] still returns nil.  A
    [Delete] during a fault of the store changes no row, whatever it
    returns. *)
Theorem Delete_removes_matching {T : Type} `{!gorm.Model T} `{!GoZero T}
    (query : gormdb.Query.t) (opts : list gormdb.QueryOptFn)
    (db : gorm.DB T) :
  (gorm.next_fault db = None →
   gormdb.Query.q query ≠ ∅ ∨ gormdb.Query.not query ≠ ∅ →
   ∃ db',
     gormdb.Delete query opts db = Done (db', None)
     ∧ gorm.rows db'
       = filter (λ r, gorm.matches (gormdb.scope query) r = false)
           (gorm.rows db)
     ∧ gorm.selected (gormdb.scope query) (gorm.rows db') = []
     ∧ gorm.trace db' = gorm.trace db ++ [gorm.EvDelete (gormdb.scope query)])
  ∧ (gorm.next_fault db = None →
     gormdb.Query.q query = ∅ →
     gormdb.Query.not query = ∅ →
     ∀ db' res,
       gormdb.Delete query opts db = Done (db', res) →
       gorm.rows db' = gorm.rows db
       ∧ (gormdb.QueryOpt.OmitNotFoundErr (gormdb.BuildOpt opts) = false →
          res = None)
       ∧ (∀ f, gormdb.QueryOpt.OmitNotFoundErr (gormdb.BuildOpt opts) = true →
               gormdb.QueryOpt.OmitNotFoundErrFn (gormdb.BuildOpt opts)
               = Some f →
               res = f gorm.ErrMissingWhereClause))
  ∧ (∀ e db' res,
       gorm.next_fault db = Some e →
       gormdb.Delete query opts db = Done (db', res) →
       gorm.rows db' = gorm.rows db).
Proof.
  assert (gorm.Where_ (gormdb.scope query) = gormdb.Query.q query
          ∧ gorm.Not_ (gormdb.scope query) = gormdb.Query.not query)
    as [HW HN] by (simpl; by rewrite !(right_id_L ∅ (∪))).
  split_and!.
  - intros Hok Hcond. unfold gormdb.Delete, gorm.Delete, gorm.exec.
    rewrite Hok.
    destruct (decide (gorm.Where_ (gormdb.scope query) = ∅
                      ∧ gorm.Not_ (gormdb.scope query) = ∅))
      as [[Hw Hn]|_].
    { rewrite HW in Hw. rewrite HN in Hn. by destruct Hcond. }
    eexists. split; [done|]. split; [done|]. split; [|done].
    apply selected_nil, filter_matches_rejected.
  - intros Hok Hq Hnot db' res. unfold gormdb.Delete, gorm.Delete, gorm.exec.
    rewrite Hok.
    destruct (decide (gorm.Where_ (gormdb.scope query) = ∅
                      ∧ gorm.Not_ (gormdb.scope query) = ∅))
      as [_|Hno].
    2: { exfalso. apply Hno. by rewrite HW, HN. }
    destruct (gormdb.QueryOpt.OmitNotFoundErr _).
    + unfold gormdb.call_OmitNotFoundErrFn.
      destruct (gormdb.QueryOpt.OmitNotFoundErrFn _) as [f|]; simpl; [|done].
      intros [= <- <-]. split; [done|]. split; [done|].
      by intros f' _ [= <-].
    + simpl. intros [= <- <-]. split; [done|]. split; [done|]. done.
  - intros e db' res He. unfold gormdb.Delete, gorm.Delete, gorm.exec.
    rewrite He. destruct (gormdb.QueryOpt.OmitNotFoundErr _).
    + unfold gormdb.call_OmitNotFoundErrFn.
      destruct (gormdb.QueryOpt.OmitNotFoundErrFn _); simpl; [|done].
      by intros [= <- _].
    + simpl. by intros [= <- _].
Qed.

(** Deleting cay's account removes her row only; a delete without any
    condition removes nothing and still returns nil. *)
Lemma Delete_removes_matching_witness :
  (∃ db',
     gormdb.Delete (gormdb.Q {["owner" := AStr "cay"]}) [] bank.store
     = Done (db', None)
     ∧ gorm.rows db' = [bank.ann; bank.ben; bank.dov; bank.eve])
  ∧ (∃ db',
       gormdb.Delete (gormdb.Q ∅) [] bank.store = Done (db', None)
       ∧ gorm.rows db' = bank.accounts).
Proof.
  split.
  - destruct (Delete_removes_matching (gormdb.Q {["owner" := AStr "cay"]})
                [] bank.store) as [Hok _].
    destruct (Hok eq_refl) as (db' & Hdel & Hrows & _).
    + left. apply (bool_decide_unpack _). by vm_compute.
    + exists db'. split; [exact Hdel|]. rewrite Hrows. by vm_compute.
  - destruct (Delete_removes_matching (gormdb.Q ∅) [] bank.store)
      as (_ & Hrefused & _).
    destruct (gormdb.Delete (gormdb.Q ∅) [] bank.store)
      as [[db' res]|msg] eqn:Hdel; [|by vm_compute in Hdel].
    destruct (Hrefused eq_refl eq_refl eq_refl db' res eq_refl)
      as (Hrows & Hnil & _).
    exists db'. rewrite (Hnil eq_refl). split; [reflexivity|exact Hrows].
Defined.

(** ** More on [List] *)

Section List_more.
Import gormdb.
Context {T : Type} `{!gorm.Model T} `{!GoZero T}.
Implicit Types (query : Query.t) (opts : list QueryOptFn) (db : gorm.DB T).

Lemma public_opt_pagination_untouched (fn : QueryOptFn) (c : QueryOpt.t) :
  public_opt fn → pagination_untouched c → pagination_untouched (fn c).
Proof.
  unfold pagination_untouched.
  intros Hfn [Htotal Hoff]. destruct Hfn as [p s| | |errFn fn Hmk]; simpl.
  - unfold Pagination.
    destruct (decide (p > 0)), (decide (s > 0)); simpl; done.
  - done.
  - done.
  - destruct errFn as [f|]; [|discriminate]. injection Hmk as <-. done.
Qed.

Lemma BuildOpt_pagination_untouched opts :
  Forall public_opt opts → pagination_untouched (BuildOpt opts).
Proof.
  intros Hopts. unfold BuildOpt.
  assert (pagination_untouched NewQueryOpt) as Hinit by (by split).
  revert Hinit. generalize NewQueryOpt.
  induction Hopts as [|fn rest Hfn _ IH]; intros c Hc; [done|].
  simpl. apply IH. by apply public_opt_pagination_untouched.
Qed.

(** The value of a paginated [List] that the store answers. *)
Lemma List_paginated_value query opts db :
  let o := BuildOpt opts in
  let p := QueryOpt.PageNumber o in
  let s := QueryOpt.PageSize o in
  let n := Z.of_nat (length (filter (λ r, gorm.matches (scope query) r = true)
                               (gorm.rows db))) in
  let counting := fold_left gorm.Order (QueryOpt.OrderBy o) (scope query) in
  let fetching :=
    fold_left gorm.Preload (QueryOpt.Preloads o)
      (gorm.Limit (gorm.Offset counting (GoInt.mul (GoInt.sub p 1) s)) s) in
  QueryOpt.Paginate o = true →
  1 <= s →
  n <= GoInt.max_int →
  gorm.no_fault 2 db →
  ∃ db',
    List query opts db
    = Done (db',
            (Some (ListRes.mk
                     (gorm.loaded fetching
                      <$> gorm.window fetching
                            (gorm.selected counting (gorm.rows db)))
                     n s ((n + s - 1) / s) p),
             None)).
Proof.
  intros o p s n counting fetching Hpag Hs Hn Hok.
  assert (gorm.next_fault db = None) as Hok1 by (by eapply no_fault_next).
  pose proof (no_fault_exec 1 (gorm.EvCount counting) db Hok) as Hok'.
  apply no_fault_next in Hok'.
  destruct (fold_Order_clauses (scope query) (QueryOpt.OrderBy o))
    as (HW & HN & HO & _).
  destruct (fold_Preload_clauses
              (gorm.Limit (gorm.Offset counting (GoInt.mul (GoInt.sub p 1) s))
                 s) (QueryOpt.Preloads o)) as (HW' & HN' & HO' & _).
  fold counting in HW, HN, HO. fold fetching in HW', HN', HO'.
  assert (0 <= n) as Hn0 by (subst n; lia).
  destruct (page_count_ceil n s) as (Hquo & Hrem & Hceil); [lia|lia|].
  unfold List. fold o. rewrite Hpag. fold counting.
  unfold gorm.Count.
  destruct (gorm.exec (gorm.EvCount counting) db) as [db1 fault1] eqn:Hexec1.
  assert (fault1 = None) as -> by (unfold gorm.exec in Hexec1; congruence).
  assert (db1 = (gorm.exec (gorm.EvCount counting) db).1) as Hdb1
    by (by rewrite Hexec1).
  rewrite (filter_matches_ext counting (scope query)) by done.
  fold n. cbn [QueryOpt.set_TotalCount QueryOpt.PageNumber QueryOpt.PageSize
    QueryOpt.Preloads QueryOpt.TotalCount].
  fold p s fetching.
  unfold gorm.Find.
  destruct (gorm.exec (gorm.EvFind fetching) db1) as [db2 fault2] eqn:Hexec2.
  assert (fault2 = None) as ->.
  { unfold gorm.exec in Hexec2. rewrite Hdb1 in Hexec2. congruence. }
  rewrite Hquo, Hrem. cbn [or_panic mbind outcome_bind mret outcome_ret].
  rewrite Hceil.
  assert (gorm.selected fetching (gorm.rows db1)
          = gorm.selected counting (gorm.rows db)) as ->.
  { rewrite Hdb1. simpl.
    apply selected_ext; [by rewrite HW'|by rewrite HN'|by rewrite HO']. }
  by eexists.
Qed.

End List_more.

(** Without the [Pagination] option (and with exported options only),
    [List] sends a single fetch and returns every matching row, ordered and
    preloaded as asked, but reports a total of 0 and a page count of 0,
    with page 1 and page size 50, however many rows it returns. *)
Theorem List_without_pagination {T : Type} `{!gorm.Model T} `{!GoZero T}
    (query : gormdb.Query.t) (opts : list gormdb.QueryOptFn)
    (db : gorm.DB T) :
  let o := gormdb.BuildOpt opts in
  let fetching :=
    fold_left gorm.Preload (gormdb.QueryOpt.Preloads o)
      (fold_left gorm.Order (gormdb.QueryOpt.OrderBy o)
         (gormdb.scope query)) in
  Forall gormdb.public_opt opts →
  gormdb.QueryOpt.Paginate o = false →
  gorm.next_fault db = None →
  ∃ db' items,
    gormdb.List query opts db
    = Done (db', (Some (gormdb.ListRes.mk items 0 50 0 1), None))
    ∧ items = gorm.loaded fetching <$> gorm.selected fetching (gorm.rows db)
    ∧ length items
      = length (filter (λ r, gorm.matches (gormdb.scope query) r = true)
                  (gorm.rows db))
    ∧ gorm.trace db' = gorm.trace db ++ [gorm.EvFind fetching].
Proof.
  intros o fetching Hopts Hoff Hok.
  destruct (BuildOpt_pagination_untouched opts Hopts) as [Htotal Hdef].
  destruct (Hdef Hoff) as [Hp Hs]. fold o in Htotal, Hp, Hs.
  destruct (fold_Preload_clauses
              (fold_left gorm.Order (gormdb.QueryOpt.OrderBy o)
                 (gormdb.scope query)) (gormdb.QueryOpt.Preloads o))
    as (HW' & HN' & _ & _ & HF' & HL').
  destruct (fold_Order_clauses (gormdb.scope query)
              (gormdb.QueryOpt.OrderBy o)) as (HW & HN & _ & _ & HF & HL).
  fold fetching in HW', HN', HF', HL'.
  unfold gormdb.List. fold o. rewrite Hoff. fold fetching.
  unfold gorm.Find, gorm.exec. rewrite Hok, Htotal, Hs, Hp.
  change (GoInt.quo 0 50) with (Some 0).
  change (GoInt.rem 0 50) with (Some 0).
  cbn [or_panic mbind outcome_bind mret outcome_ret].
  eexists _, _. split; [reflexivity|].
  assert (gorm.window fetching (gorm.selected fetching (gorm.rows db))
          = gorm.selected fetching (gorm.rows db)) as Hwin.
  { unfold gorm.window. by rewrite HF', HF, HL', HL. }
  split; [by rewrite Hwin|]. split; [|done].
  rewrite length_fmap, Hwin, length_selected.
  f_equal. apply filter_matches_ext; by rewrite ?HW', ?HN', ?HW, ?HN.
Qed.

(** All five accounts are returned, and the result says there are none. *)
Lemma List_without_pagination_witness :
  ∃ db' items,
    gormdb.List (gormdb.Q ∅) [gormdb.OrderBy ["balance"]] bank.store
    = Done (db', (Some (gormdb.ListRes.mk items 0 50 0 1), None))
    ∧ items = [bank.dov; bank.ann; bank.cay; bank.ben; bank.eve].
Proof.
  destruct (List_without_pagination (gormdb.Q ∅)
              [gormdb.OrderBy ["balance"]] bank.store)
    as (db' & items & HList & Hitems & _).
  - apply Forall_cons_2; [apply gormdb.public_OrderBy|apply Forall_nil_2].
  - reflexivity.
  - reflexivity.
  - exists db', items. split; [exact HList|]. rewrite Hitems. by vm_compute.
Defined.

(** The page a paginated [List] returns, for a page number [p >= 1] whose
    offset fits in an [int]: the rows from position [(p-1)*s] of the
    ordered matching rows, [s] of them at most, each preloaded.  Its length
    is [min s (n - (p-1)*s)], or 0 past the end; every page up to the page
    count holds at least one row and every page after it is empty. *)
Theorem List_page_contents {T : Type} `{!gorm.Model T} `{!GoZero T}
    (query : gormdb.Query.t) (opts : list gormdb.QueryOptFn)
    (db : gorm.DB T) :
  let o := gormdb.BuildOpt opts in
  let p := gormdb.QueryOpt.PageNumber o in
  let s := gormdb.QueryOpt.PageSize o in
  let n := Z.of_nat (length (filter
             (λ r, gorm.matches (gormdb.scope query) r = true)
             (gorm.rows db))) in
  let ordered :=
    gorm.selected
      (fold_left gorm.Order (gormdb.QueryOpt.OrderBy o) (gormdb.scope query))
      (gorm.rows db) in
  let preloaded :=
    fold_left (λ r relation, gorm.preload relation r)
      (gormdb.QueryOpt.Preloads o) in
  gormdb.QueryOpt.Paginate o = true →
  1 <= p →
  1 <= s →
  GoInt.in_range ((p - 1) * s) →
  n <= GoInt.max_int →
  gorm.no_fault 2 db →
  ∃ db' res,
    gormdb.List query opts db = Done (db', (Some res, None))
    ∧ gormdb.ListRes.Items res
      = preloaded
        <$> take (Z.to_nat s) (drop (Z.to_nat ((p - 1) * s)) ordered)
    ∧ Z.of_nat (length (gormdb.ListRes.Items res))
      = Z.max 0 (Z.min s (n - (p - 1) * s))
    ∧ (p <= gormdb.ListRes.PageCount res → gormdb.ListRes.Items res ≠ [])
    ∧ (gormdb.ListRes.PageCount res < p → gormdb.ListRes.Items res = []).
Proof.
  intros o p s n ordered preloaded Hpag Hp Hs Hfit Hn Hok.
  destruct (List_paginated_value query opts db Hpag Hs Hn Hok) as [db' HList].
  fold o p s n in HList.
  set (counting := fold_left gorm.Order (gormdb.QueryOpt.OrderBy o)
                     (gormdb.scope query)) in *.
  set (offset := GoInt.mul (GoInt.sub p 1) s) in *.
  set (fetching := fold_left gorm.Preload (gormdb.QueryOpt.Preloads o)
                     (gorm.Limit (gorm.Offset counting offset) s)) in *.
  assert (offset = (p - 1) * s) as Hoffset by (by apply offset_exact).
  destruct (fold_Preload_clauses (gorm.Limit (gorm.Offset counting offset) s)
              (gormdb.QueryOpt.Preloads o))
    as (_ & _ & _ & HP' & HF' & HL').
  destruct (fold_Order_clauses (gormdb.scope query)
              (gormdb.QueryOpt.OrderBy o)) as (HW & HN & _ & HP & _).
  fold fetching in HP', HF', HL'. fold counting in HW, HN, HP.
  assert (gorm.window fetching ordered
          = take (Z.to_nat s) (drop (Z.to_nat ((p - 1) * s)) ordered))
    as Hwin.
  { unfold gorm.window. rewrite HF', HL'. simpl. rewrite Hoffset.
    rewrite (decide_True (P := 0 <= s)) by lia.
    destruct (decide (0 < (p - 1) * s)) as [Hpos|Hzero]; [done|].
    by replace ((p - 1) * s) with 0 by nia. }
  assert (∀ r, gorm.loaded fetching r = preloaded r) as Hload.
  { intros r. unfold gorm.loaded. rewrite HP'. simpl. by rewrite HP. }
  assert (Z.of_nat (length ordered) = n) as Hlen.
  { unfold ordered. rewrite length_selected.
    by rewrite (filter_matches_ext counting (gormdb.scope query)). }
  assert (gorm.loaded fetching <$> gorm.window fetching ordered
          = preloaded
            <$> take (Z.to_nat s) (drop (Z.to_nat ((p - 1) * s)) ordered))
    as Hitems.
  { rewrite Hwin. apply list_fmap_ext. intros _ r _. apply Hload. }
  assert (Z.of_nat (length (preloaded
            <$> take (Z.to_nat s) (drop (Z.to_nat ((p - 1) * s)) ordered)))
          = Z.max 0 (Z.min s (n - (p - 1) * s))) as Hcount.
  { assert (0 <= (p - 1) * s) by nia.
    rewrite length_fmap, length_take, length_drop. lia. }
  destruct (ceil_least n s) as [Hlow Hhigh]; [lia|lia|].
  eexists db', _. split; [exact HList|].
  cbn [gormdb.ListRes.Items gormdb.ListRes.PageCount].
  fold ordered. rewrite Hitems.
  split; [done|]. split; [exact Hcount|]. split.
  - intros Hle Hnil. rewrite Hnil in Hcount. simpl in Hcount. nia.
  - intros Hlt. apply length_zero_iff_nil. nia.
Qed.

(** Page 3 of size 2 over the five accounts holds the fifth one only. *)
Lemma List_page_contents_witness :
  ∃ db' res,
    gormdb.List (gormdb.Q ∅) [gormdb.Pagination 3 2] bank.store
    = Done (db', (Some res, None))
    ∧ gormdb.ListRes.Items res = [bank.eve].
Proof.
  destruct (List_page_contents (gormdb.Q ∅) [gormdb.Pagination 3 2]
              bank.store)
    as (db' & res & HList & Hitems & _).
  - reflexivity.
  - by vm_compute.
  - by vm_compute.
  - split; by vm_compute.
  - by vm_compute.
  - constructor.
  - exists db', res. split; [exact HList|]. rewrite Hitems. by vm_compute.
Defined.

(** [List] hands the store's error back unchanged, with no result: when
    the count fails no fetch is attempted; when the fetch fails, paginating
    or not, the error is the fetch's.  None of this depends on the page
    size, zero included. *)
Theorem List_propagates_errors {T : Type} `{!gorm.Model T} `{!GoZero T}
    (query : gormdb.Query.t) (opts : list gormdb.QueryOptFn)
    (db : gorm.DB T) (e : error) :
  let o := gormdb.BuildOpt opts in
  let counting :=
    fold_left gorm.Order (gormdb.QueryOpt.OrderBy o) (gormdb.scope query) in
  (gorm.next_fault db = Some e →
   ∃ db',
     gormdb.List query opts db = Done (db', (None, Some e))
     ∧ gorm.rows db' = gorm.rows db
     ∧ ∃ st, gorm.trace db'
             = gorm.trace db
               ++ [if gormdb.QueryOpt.Paginate o then gorm.EvCount st
                   else gorm.EvFind st])
  ∧ (∀ fs, gormdb.QueryOpt.Paginate o = true →
           gorm.faults db = None :: Some e :: fs →
           ∃ db',
             gormdb.List query opts db = Done (db', (None, Some e))
             ∧ gorm.rows db' = gorm.rows db).
Proof.
  intros o counting. split.
  - intros He. unfold gormdb.List. fold o.
    destruct (gormdb.QueryOpt.Paginate o).
    + unfold gorm.Count, gorm.exec. rewrite He. simpl.
      eexists. split; [done|]. split; [done|]. by eexists.
    + unfold gorm.Find, gorm.exec. rewrite He. simpl.
      eexists. split; [done|]. split; [done|]. by eexists.
  - intros fs Hpag Hfaults. unfold gormdb.List. fold o. rewrite Hpag.
    unfold gorm.Count, gorm.Find, gorm.exec, gorm.next_fault.
    rewrite Hfaults. simpl. by eexists.
Qed.

Lemma List_propagates_errors_witness :
  ∃ db',
    gormdb.List (gormdb.Q ∅) [gormdb.Pagination 1 0] bank.unreachable
    = Done (db', (None, Some (ErrOther "connection refused"))).
Proof.
  destruct (List_propagates_errors (gormdb.Q ∅) [gormdb.Pagination 1 0]
              bank.unreachable (ErrOther "connection refused"))
    as [Hfirst _].
  destruct (Hfirst eq_refl) as (db' & HList & _).
  by exists db'.
Defined.

(** ** The reflective helpers [Pluck] and [FieldMap] *)

Section Reflection_facts.
Import utils_reflect.
Context {StructT : Type} `{!reflect.Reflected StructT}.

(** Either every item yields its field, or there is a first one that does
    not. *)
Lemma all_yield_or_first_error {FieldT : Type} `{!reflect.Asserted FieldT}
    (caller fieldName : string) (l : list StructT) :
  (∃ values : list FieldT, all_yield caller fieldName l values)
  ∨ (∃ before item after (values : list FieldT) err,
       l = before ++ item :: after
       ∧ all_yield caller fieldName before values
       ∧ field_of (FieldT := FieldT) caller item fieldName = inl err).
Proof.
  induction l as [|x l IH].
  - left. exists []. constructor.
  - destruct (field_of (FieldT := FieldT) caller x fieldName)
      as [err|val] eqn:Hx.
    + right. exists [], x, l, [], err. split; [done|]. split; [constructor|done].
    + destruct IH as [[values Hall]|(before & item & after & values & err
                                     & -> & Hall & Herr)].
      * left. exists (val :: values). by constructor.
      * right. exists (x :: before), item, after, (val :: values), err.
        split; [done|]. split; [by constructor|done].
Qed.

Lemma Pluck_loop_yield {FieldT : Type} `{!reflect.Asserted FieldT}
    (fieldName : string) (l : list StructT) (values acc : list FieldT) :
  all_yield "Pluck" fieldName l values →
  Pluck_loop l fieldName acc = (acc ++ values, None).
Proof.
  intros Hall. revert acc.
  induction Hall as [|x val l values Hx _ IH]; intros acc; simpl.
  - by rewrite app_nil_r.
  - rewrite Hx, IH. by rewrite <- app_assoc.
Qed.

Lemma Pluck_loop_error {FieldT : Type} `{!reflect.Asserted FieldT}
    (fieldName : string) (before after : list StructT) (item : StructT)
    (values acc : list FieldT) (err : FieldError) :
  all_yield "Pluck" fieldName before values →
  field_of (FieldT := FieldT) "Pluck" item fieldName = inl err →
  Pluck_loop (before ++ item :: after) fieldName acc = ([], Some err).
Proof.
  intros Hall Herr. revert acc.
  induction Hall as [|x val l values Hx _ IH]; intros acc; simpl.
  - by rewrite Herr.
  - rewrite Hx. apply IH.
Qed.

Lemma all_yield_fmap {FieldT : Type} `{!reflect.Asserted FieldT}
    (caller fieldName : string) (l : list StructT) (f : StructT → FieldT) :
  (∀ item, item ∈ l → field_of caller item fieldName = inr (f item)) →
  all_yield caller fieldName l (f <$> l).
Proof.
  induction l as [|x l IH]; intros Hf; [constructor|].
  constructor; [apply Hf; by left|].
  apply IH. intros item Hin. apply Hf. by right.
Qed.

Lemma all_yield_inj {FieldT : Type} `{!reflect.Asserted FieldT}
    (caller fieldName : string) (l : list StructT)
    (values values' : list FieldT) :
  all_yield caller fieldName l values →
  all_yield caller fieldName l values' → values = values'.
Proof.
  intros Hall. revert values'.
  induction Hall as [|x val l values Hx _ IH]; intros values' Hall'.
  - by inversion Hall'.
  - inversion Hall' as [|? val' ? values'' Hx' Hrest]; subst.
    f_equal; [congruence|by apply IH].
Qed.

Context {KeyT : Type} `{Countable KeyT} `{!reflect.Asserted KeyT}.

Lemma FieldMap_loop_error (fieldName : string)
    (before after : list StructT) (item : StructT) (keys : list KeyT)
    (acc : gmap KeyT StructT) (err : FieldError) :
  all_yield "FieldMap" fieldName before keys →
  field_of (FieldT := KeyT) "FieldMap" item fieldName = inl err →
  FieldMap_loop (before ++ item :: after) fieldName acc = (∅, Some err).
Proof.
  intros Hall Herr. revert acc.
  induction Hall as [|x val l values Hx _ IH]; intros acc; simpl.
  - by rewrite Herr.
  - rewrite Hx. apply IH.
Qed.

Lemma FieldMap_loop_selector (fieldName : string) (l : list StructT)
    (f : StructT → KeyT) (acc : gmap KeyT StructT) :
  (∀ item, item ∈ l → field_of "FieldMap" item fieldName = inr (f item)) →
  FieldMap_loop l fieldName acc
  = (fold_left (utils.FieldMapStructFn_step (utils.SelectAll f)) l acc, None).
Proof.
  revert acc. induction l as [|x l IH]; intros acc Hf; [done|].
  simpl. rewrite (Hf x) by (by left). rewrite IH; [done|].
  intros item Hin. apply Hf. by right.
Qed.

Lemma FieldMap_loop_entries (fieldName : string) (l : list StructT)
    (acc m : gmap KeyT StructT) :
  FieldMap_loop l fieldName acc = (m, None) →
  ∀ k v, m !! k = Some v →
         (v ∈ l ∧ field_of "FieldMap" v fieldName = inr k)
         ∨ acc !! k = Some v.
Proof.
  revert acc. induction l as [|x l IH]; intros acc Hm k v Hk.
  - simpl in Hm. injection Hm as <-. by right.
  - simpl in Hm.
    destruct (field_of (FieldT := KeyT) "FieldMap" x fieldName)
      as [err|key] eqn:Hx; [discriminate|].
    destruct (IH _ Hm k v Hk) as [[Hin Hv]|Hacc].
    + left. split; [by right|done].
    + destruct (decide (key = k)) as [->|Hne].
      * rewrite lookup_insert_eq in Hacc. injection Hacc as <-.
        left. split; [by left|done].
      * rewrite lookup_insert_ne in Hacc by done. by right.
Qed.

End Reflection_facts.

(** [Pluck] returns the field of every item, in order, exactly when every
    item yields it; otherwise it returns a nil slice together with the
    error of the first item that does not, and nothing of what it had
    collected. *)
Theorem Pluck_all_or_first_error {StructT FieldT : Type}
    `{!reflect.Reflected StructT} `{!reflect.Asserted FieldT}
    (l : list StructT) (fieldName : string) :
  (∀ values : list FieldT,
     utils_reflect.Pluck l fieldName = (values, None)
     ↔ utils_reflect.all_yield "Pluck" fieldName l values)
  ∧ (∀ err,
       utils_reflect.Pluck (FieldT := FieldT) l fieldName = ([], Some err)
       ↔ ∃ before item after (values : list FieldT),
           l = before ++ item :: after
           ∧ utils_reflect.all_yield "Pluck" fieldName before values
           ∧ utils_reflect.field_of (FieldT := FieldT) "Pluck" item fieldName
             = inl err)
  ∧ (∀ (values : list FieldT) err,
       utils_reflect.Pluck l fieldName = (values, Some err) → values = [])
  ∧ (∀ values : list FieldT,
       utils_reflect.Pluck l fieldName = (values, None) →
       length values = length l).
Proof.
  unfold utils_reflect.Pluck.
  assert (∀ values : list FieldT,
            utils_reflect.all_yield "Pluck" fieldName l values →
            utils_reflect.Pluck_loop l fieldName [] = (values, None))
    as Hok by (intros values Hall; by rewrite (Pluck_loop_yield _ _ values)).
  split_and!.
  - intros values. split; [|apply Hok].
    intros HP.
    destruct (all_yield_or_first_error (FieldT := FieldT) "Pluck" fieldName l)
      as [[values' Hall]|(before & item & after & values' & err
                          & -> & Hall & Herr)].
    + rewrite (Hok _ Hall) in HP. by injection HP as <-.
    + rewrite (Pluck_loop_error _ _ _ _ values' [] err Hall Herr) in HP.
      discriminate.
  - intros err. split.
    + intros HP.
      destruct (all_yield_or_first_error (FieldT := FieldT) "Pluck"
                  fieldName l)
        as [[values' Hall]|(before & item & after & values' & err'
                            & -> & Hall & Herr)].
      * rewrite (Hok _ Hall) in HP. discriminate.
      * rewrite (Pluck_loop_error _ _ _ _ values' [] err' Hall Herr) in HP.
        injection HP as <-. by exists before, item, after, values'.
    + intros (before & item & after & values & -> & Hall & Herr).
      by apply (Pluck_loop_error _ _ _ _ values).
  - intros values err HP.
    destruct (all_yield_or_first_error (FieldT := FieldT) "Pluck" fieldName l)
      as [[values' Hall]|(before & item & after & values' & err'
                          & -> & Hall & Herr)].
    + rewrite (Hok _ Hall) in HP. discriminate.
    + rewrite (Pluck_loop_error _ _ _ _ values' [] err' Hall Herr) in HP.
      by injection HP as <- _.
  - intros values HP.
    destruct (all_yield_or_first_error (FieldT := FieldT) "Pluck" fieldName l)
      as [[values' Hall]|(before & item & after & values' & err'
                          & -> & Hall & Herr)].
    + rewrite (Hok _ Hall) in HP. injection HP as <-.
      symmetry. by eapply Forall2_length.
    + rewrite (Pluck_loop_error _ _ _ _ values' [] err' Hall Herr) in HP.
      discriminate.
Qed.

(** The cases of the package's tests: an existing field, a missing field,
    a field of another type, the empty list. *)
Example Pluck_scenarios :
  utils_reflect.Pluck utils.users "Name" = (["Alice"; "Bob"; "Charlie"], None)
  ∧ utils_reflect.Pluck utils.users "Age" = ([30; 25; 35], None)
  ∧ utils_reflect.Pluck (FieldT := string) utils.users "NonExistentField"
    = ([], Some (utils_reflect.NoSuchField "Pluck" "NonExistentField"))
  ∧ utils_reflect.Pluck (FieldT := Z) utils.users "Name"
    = ([], Some (utils_reflect.NotOfType "Pluck" "Name"))
  ∧ utils_reflect.Pluck (StructT := utils.User) (FieldT := string) [] "Name"
    = ([], None).
Proof. repeat split. Qed.

(** Where the named field of every item is what the extractor [f] returns,
    the reflective helpers compute what the selector-based ones compute
    with [SelectAll f]. *)
Theorem reflective_helpers_agree {StructT FieldT : Type}
    `{Countable FieldT} `{!GoZero FieldT}
    `{!reflect.Reflected StructT} `{!reflect.Asserted FieldT}
    (l : list StructT) (fieldName : string) (f : StructT → FieldT) :
  (∀ caller item, item ∈ l →
     utils_reflect.field_of caller item fieldName = inr (f item)) →
  utils_reflect.Pluck l fieldName
  = (utils.PluckFn l (utils.SelectAll f), None)
  ∧ utils_reflect.FieldMap l fieldName
    = (utils.FieldMapStructFn l (utils.SelectAll f), None).
Proof.
  intros Hf. split.
  - unfold utils_reflect.Pluck.
    rewrite (Pluck_loop_yield _ _ (f <$> l))
      by (apply all_yield_fmap; intros item; apply Hf).
    simpl. f_equal. symmetry.
    apply list_eq. intros i. unfold utils.PluckFn.
    destruct (l !! i) as [item|] eqn:Hi.
    + rewrite list_lookup_fmap, Hi. simpl.
      apply (PluckFn_loop_at (utils.SelectAll f) 0%nat l _ i item
               zero_value Hi).
      simpl. apply lookup_replicate_2. by eapply lookup_lt_Some.
    + rewrite list_lookup_fmap, Hi. simpl. apply lookup_ge_None.
      rewrite PluckFn_loop_length, length_replicate. by apply lookup_ge_None.
  - unfold utils_reflect.FieldMap, utils.FieldMapStructFn.
    apply FieldMap_loop_selector. intros item. apply Hf.
Qed.

Lemma reflective_helpers_agree_witness :
  utils_reflect.Pluck utils.shared_id "ID"
  = (utils.PluckFn utils.shared_id (utils.SelectAll utils.ID), None)
  ∧ utils_reflect.FieldMap utils.shared_id "ID"
    = (utils.FieldMapStructFn utils.shared_id (utils.SelectAll utils.ID),
       None).
Proof.
  apply reflective_helpers_agree.
  intros caller item Hin. reflexivity.
Defined.

(** [FieldMap] returns a nil map together with the error of the first item
    that does not yield the field; when it returns no error, every entry
    of the map is an item of the input filed under the value of its field,
    and the map has no more entries than the input has items. *)
Theorem FieldMap_entries_or_first_error {StructT KeyT : Type}
    `{Countable KeyT} `{!reflect.Reflected StructT}
    `{!reflect.Asserted KeyT} (l : list StructT) (fieldName : string) :
  (∀ before item after (keys : list KeyT) err,
     l = before ++ item :: after →
     utils_reflect.all_yield "FieldMap" fieldName before keys →
     utils_reflect.field_of (FieldT := KeyT) "FieldMap" item fieldName
     = inl err →
     utils_reflect.FieldMap (FieldT := KeyT) l fieldName = (∅, Some err))
  ∧ (∀ m : gmap KeyT StructT,
       utils_reflect.FieldMap l fieldName = (m, None) →
       ∀ k v, m !! k = Some v →
              v ∈ l
              ∧ utils_reflect.field_of "FieldMap" v fieldName = inr k).
Proof.
  unfold utils_reflect.FieldMap. split.
  - intros before item after keys err -> Hall Herr.
    by apply (FieldMap_loop_error _ _ _ _ keys).
  - intros m Hm k v Hk.
    destruct (FieldMap_loop_entries _ _ _ _ Hm k v Hk) as [?|Hempty]; [done|].
    by rewrite lookup_empty in Hempty.
Qed.

(** A list whose second item is a plain number: the map is nil and the
    error says a struct was expected. *)
Lemma FieldMap_entries_or_first_error_witness :
  utils_reflect.FieldMap (FieldT := Z)
    [utils_reflect.ByValue utils.alice; utils_reflect.Number 7;
     utils_reflect.ByPointer utils.bob] "ID"
  = (∅, Some (utils_reflect.ExpectedStruct "FieldMap")).
Proof.
  destruct (FieldMap_entries_or_first_error (KeyT := Z)
              [utils_reflect.ByValue utils.alice; utils_reflect.Number 7;
               utils_reflect.ByPointer utils.bob] "ID") as [Herr _].
  apply (Herr [utils_reflect.ByValue utils.alice] (utils_reflect.Number 7)
           [utils_reflect.ByPointer utils.bob] [1]).
  - reflexivity.
  - repeat constructor.
  - reflexivity.
Defined.

(** One pointer is followed and no more: a pointer to a struct yields what
    the struct yields, while a nil pointer and a pointer to a pointer are
    refused as not being structs, as is any value that is neither a struct
    nor a pointer to one. *)
Theorem field_of_pointers {A B FieldT : Type}
    `{!reflect.Reflected A} `{!reflect.Reflected B}
    `{!reflect.Asserted FieldT}
    (caller fieldName : string) (a : A) (b : B) :
  (reflect.ValueOf a = reflect.Ptr (reflect.ValueOf b) →
   reflect.Kind_of (reflect.ValueOf b) ≠ reflect.KPtr →
   utils_reflect.field_of (FieldT := FieldT) caller a fieldName
   = utils_reflect.field_of caller b fieldName)
  ∧ (reflect.ValueOf a = reflect.Ptr (reflect.ValueOf b) →
     reflect.Kind_of (reflect.ValueOf b) = reflect.KPtr →
     utils_reflect.field_of (FieldT := FieldT) caller a fieldName
     = inl (utils_reflect.ExpectedStruct caller))
  ∧ (reflect.ValueOf a = reflect.Ptr reflect.Invalid
     ∨ reflect.ValueOf a = reflect.OtherKind
     ∨ reflect.ValueOf a = reflect.Invalid →
     utils_reflect.field_of (FieldT := FieldT) caller a fieldName
     = inl (utils_reflect.ExpectedStruct caller)).
Proof.
  unfold utils_reflect.field_of. split_and!.
  - intros -> Hb. simpl.
    by destruct (decide (reflect.Kind_of (reflect.ValueOf b) = reflect.KPtr)).
  - intros -> Hb. simpl. rewrite Hb. done.
  - intros [-> | [-> | ->]]; done.
Qed.

Lemma field_of_pointers_witness :
  utils_reflect.field_of (FieldT := string) "Pluck"
    (utils_reflect.ByPointer utils.bob) "Name" = inr "Bob"
  ∧ utils_reflect.field_of (FieldT := string) "Pluck"
      (utils_reflect.PointerToPointer utils.bob) "Name"
    = inl (utils_reflect.ExpectedStruct "Pluck")
  ∧ utils_reflect.field_of (FieldT := string) "Pluck"
      utils_reflect.NilPointer "Name"
    = inl (utils_reflect.ExpectedStruct "Pluck").
Proof.
  split; [|split].
  - destruct (field_of_pointers (FieldT := string) "Pluck" "Name"
                (utils_reflect.ByPointer utils.bob) utils.bob)
      as (Hderef & _).
    rewrite Hderef; [reflexivity|reflexivity|discriminate].
  - destruct (field_of_pointers (FieldT := string) "Pluck" "Name"
                (utils_reflect.PointerToPointer utils.bob)
                (utils_reflect.ByPointer utils.bob))
      as (_ & Hptr & _).
    apply Hptr; reflexivity.
  - destruct (field_of_pointers (FieldT := string) "Pluck" "Name"
                utils_reflect.NilPointer utils.bob)
      as (_ & _ & Hnil).
    apply Hnil. by left.
Defined.

(** A field that is not exported is found but cannot be read. *)
Example Pluck_unexported :
  utils_reflect.Pluck (FieldT := Z)
    [utils_reflect.Secretive utils.alice] "id"
  = ([], Some (utils_reflect.CannotBeAccessed "Pluck" "id")).
Proof. reflexivity. Qed.

(** ** Instances of the entry properties on the examples' data *)

(** What sits under ID 1 is a user of the list whose ID is 1, and there is
    nothing under ID 9 because no user has it. *)
Lemma FieldMapStructFn_entries_witness :
  (utils.zed ∈ utils.shared_id
   ∧ utils.SelectAll utils.ID utils.zed = (1, true))
  ∧ utils.SelectAll utils.ID utils.bob ≠ (9, true).
Proof.
  destruct (FieldMapStructFn_entries utils.shared_id
              (utils.SelectAll utils.ID)) as (Hentry & Habsent & _).
  split.
  - apply (Hentry 1 utils.zed). reflexivity.
  - apply (Habsent 9); [reflexivity|]. unfold utils.shared_id.
    apply list_elem_of_further, list_elem_of_here.
Defined.

(** Names by ID for the users older than 28 only: Bob, who is 25, leaves
    no entry although his ID is selected. *)
Lemma FieldMapFieldFn_entries_witness :
  utils.FieldMapFieldFn utils.users (utils.SelectAll utils.ID)
    utils.older_than_28 !! 2 = None
  ∧ (utils.older_than_28 utils.bob).2 = false.
Proof.
  destruct (FieldMapFieldFn_entries utils.users (utils.SelectAll utils.ID)
              utils.older_than_28) as (_ & Habsent).
  split; [reflexivity|].
  apply (Habsent 2); [reflexivity| |reflexivity]. unfold utils.users.
  apply list_elem_of_further, list_elem_of_here.
Defined.

(** The names of the three users, through reflection. *)
Lemma Pluck_all_or_first_error_witness :
  utils_reflect.all_yield "Pluck" "Name" utils.users
    ["Alice"; "Bob"; "Charlie"]
  ∧ length ["Alice"; "Bob"; "Charlie"] = length utils.users.
Proof.
  destruct (Pluck_all_or_first_error (FieldT := string) utils.users "Name")
    as (Hok & _ & _ & Hlen).
  split.
  - apply Hok. reflexivity.
  - apply (Hlen ["Alice"; "Bob"; "Charlie"]). reflexivity.
Defined.

(** Account 2 exists: [Get] returns it with the two relations loaded in
    the order they were asked for. *)
Lemma Get_found_preloaded_witness :
  ∃ db',
    gormdb.Get (gormdb.Q {["id" := AInt 2]})
      [gormdb.Preload ["Cards"; "Branch"]] bank.store
    = Done (db', (Some (bank.mkAccount 2 "ben" 70 ["Cards"; "Branch"]), None)).
Proof.
  destruct (Get_found_preloaded (gormdb.Q {["id" := AInt 2]})
              [gormdb.Preload ["Cards"; "Branch"]] bank.store bank.ben [])
    as [db' Hget].
  - reflexivity.
  - by vm_compute.
  - exists db'. exact Hget.
Defined.
